(** * ziptool: a verification model of [main.cpp]

    The program archives a directory tree into a ZIP file.  This development
    embeds the functions of [src/main.cpp] ([should_ignore],
    [make_ignore_set], [compress] and the two sub-commands of [main]) as
    executable Rocq functions over an explicit model of the file system, and
    states the properties of the specification about them.

    Modelling conventions.
    - [std::filesystem::path] is a record: an absolute flag and the list of
      file-name elements (POSIX syntax, separator [/]).
    - The file system is a tree of nodes as [stat] reports them (symbolic
      links are followed): regular files, directories, other files (FIFOs,
      sockets, devices) and dangling symbolic links.  Every existing node
      carries a file identity (device and inode number); hard links share it.
    - C++ [int] is a 32-bit two's complement integer, kept as a [Z] with the
      wrap-around written out ([wrap32]).
    - An uncaught C++ exception is the outcome [Threw].
    - Calls to the ZIP writer, the progress bar, the output streams and
      [fs::rename] are recorded as a chronological list of [event]s.

    Limits of the model.  Paths follow the POSIX syntax; the only symbolic
    links are dangling ones, so that [weakly_canonical] is the normal form
    of the absolute path; the current directory is a path that a rename does
    not move; the contents of files and the permission bits of entries are
    left out; the file system does not change during a run except through
    the program itself. *)

From Stdlib Require Import String Ascii List ZArith Lia Bool Arith.
From Stdlib Require Import DecimalString Sorted.
Import ListNotations.
Open Scope string_scope.
Open Scope list_scope.

(** String concatenation ([std::string::operator+]). *)
Infix "+++" := String.append (at level 60, right associativity).

(* ===================================================================== *)
(** ** Outcomes: normal return or uncaught exception                     *)
(* ===================================================================== *)

Inductive outcome (A : Type) : Type :=
| Ok (a : A)
| Threw.
Arguments Ok {A} a.
Arguments Threw {A}.

Definition bind {A B : Type} (m : outcome A) (k : A -> outcome B) : outcome B :=
  match m with
  | Ok a => k a
  | Threw => Threw
  end.

Notation "x <- m ;; k" := (bind m (fun x => k))
  (at level 61, m at next level, right associativity).
Notation "' pat <- m ;; k" := (bind m (fun x => match x with pat => k end))
  (at level 61, pat pattern, m at next level, right associativity).

(* ===================================================================== *)
(** ** 32-bit [int] arithmetic                                           *)
(* ===================================================================== *)

Definition int_min : Z := - 2 ^ 31.
Definition int_max : Z := 2 ^ 31 - 1.

(** Two's complement reduction of a mathematical integer to [int]. *)
Definition wrap32 (z : Z) : Z := (z + 2 ^ 31) mod 2 ^ 32 - 2 ^ 31.

Definition int_add (a b : Z) : Z := wrap32 (a + b).
Definition int_mul (a b : Z) : Z := wrap32 (a * b).
(** C++ [/] and [%] on [int] truncate towards zero. *)
Definition int_div (a b : Z) : Z := wrap32 (Z.quot a b).
Definition int_rem (a b : Z) : Z := Z.rem a b.
(** [processed++], [total_files++]. *)
Definition int_incr (a : Z) : Z := int_add a 1.
(** [static_cast<int>(v.size())]. *)
Definition int_of_size (n : nat) : Z := wrap32 (Z.of_nat n).

(* ===================================================================== *)
(** ** Paths ([std::filesystem::path], POSIX syntax)                      *)
(* ===================================================================== *)

Record path : Type := mkPath {
  absolute : bool;           (* has a root directory *)
  elems : list string        (* the file-name elements, outermost first *)
}.

Definition empty_path : path := mkPath false [].
Definition dot_path : path := mkPath false ["."].

(** Splitting a string at [/]; [cur] is the element being read. *)
Fixpoint split_slash (s : string) (cur : string) : list string :=
  match s with
  | EmptyString => [cur]
  | String c r =>
      if Ascii.eqb c "/" then cur :: split_slash r ""
      else split_slash r (cur +++ String c "")
  end.

Definition nonempty (s : string) : bool := negb (s =? "").

(** [fs::path{s}]: repeated separators collapse, a trailing separator is
    not kept as an empty last element. *)
Definition path_of_string (s : string) : path :=
  mkPath (String.prefix "/" s) (filter nonempty (split_slash s "")).

(** [p.generic_string()]. *)
Definition generic_string (p : path) : string :=
  (if absolute p then "/" else "") +++ String.concat "/" (elems p).

(** [p.string()]: the native format is the generic one on POSIX. *)
Definition path_string (p : path) : string := generic_string p.

(** [p / q]. *)
Definition path_append (p q : path) : path :=
  if absolute q then q else mkPath (absolute p) (elems p ++ elems q).
Infix "//" := path_append (at level 40, left associativity).

(** [p.filename()]. *)
Definition filename (p : path) : path :=
  mkPath false (match rev (elems p) with [] => [] | x :: _ => [x] end).

(** [p.parent_path()]. *)
Definition parent_path (p : path) : path :=
  mkPath (absolute p) (removelast (elems p)).

(** [lexically_normal]: [acc] holds the elements kept so far, innermost
    first. *)
Fixpoint normal_elems (abs : bool) (acc : list string) (l : list string)
  : list string :=
  match l with
  | [] => rev acc
  | x :: r =>
      if x =? "." then normal_elems abs acc r
      else if x =? ".." then
        match acc with
        | [] => if abs then normal_elems abs [] r
                else normal_elems abs [".."] r
        | y :: acc' =>
            if y =? ".." then normal_elems abs (".." :: acc) r
            else normal_elems abs acc' r
        end
      else normal_elems abs (x :: acc) r
  end.

Definition lexically_normal (p : path) : path :=
  match elems p, absolute p with
  | [], _ => p
  | _, abs =>
      match normal_elems abs [] (elems p) with
      | [] => if abs then mkPath true [] else dot_path
      | l => mkPath abs l
      end
  end.

(** Removal of the common prefix of two element lists. *)
Fixpoint mismatch (a b : list string) : list string * list string :=
  match a, b with
  | x :: a', y :: b' => if x =? y then mismatch a' b' else (a, b)
  | _, _ => (a, b)
  end.

(** The count [n] of [lexically_relative]: named elements count [+1],
    [..] counts [-1], [.] counts [0]. *)
Fixpoint updirs (b : list string) : Z :=
  match b with
  | [] => 0%Z
  | x :: r =>
      ((if String.eqb x ".." then -1 else if String.eqb x "." then 0 else 1)
       + updirs r)%Z
  end.

(** [p.lexically_relative(base)]. *)
Definition lexically_relative (p base : path) : path :=
  if negb (Bool.eqb (absolute p) (absolute base)) then empty_path
  else
    let '(a, b) := mismatch (elems p) (elems base) in
    match a, b with
    | [], [] => dot_path
    | _, _ =>
        let n := updirs b in
        if Z.ltb n 0 then empty_path
        else if Z.eqb n 0 && (match a with [] => true | _ => false end)
        then dot_path
        else mkPath false (repeat ".." (Z.to_nat n) ++ a)
    end.

(** Ordering of [std::set<fs::path>]: element-wise, lexicographic. *)
Fixpoint elems_compare (a b : list string) : comparison :=
  match a, b with
  | [], [] => Eq
  | [], _ :: _ => Lt
  | _ :: _, [] => Gt
  | x :: a', y :: b' =>
      match String.compare x y with
      | Eq => elems_compare a' b'
      | c => c
      end
  end.

Definition path_compare (p q : path) : comparison :=
  match absolute p, absolute q with
  | false, true => Lt
  | true, false => Gt
  | _, _ => elems_compare (elems p) (elems q)
  end.

(** [std::set<fs::path>::insert] on the sorted list of the set's elements. *)
Fixpoint set_insert (p : path) (s : list path) : list path :=
  match s with
  | [] => [p]
  | q :: r =>
      match path_compare p q with
      | Lt => p :: q :: r
      | Eq => q :: r
      | Gt => q :: set_insert p r
      end
  end.

(* ===================================================================== *)
(** ** The file system                                                    *)
(* ===================================================================== *)

(** A node as [stat] sees it.  [denied] marks a directory that cannot be
    listed ([opendir] fails with a permission error). *)
Inductive node : Type :=
| Regular (ino : nat)
| Directory (ino : nat) (denied : bool) (kids : forest)
| Special (ino : nat)
| Dangling
with forest : Type :=
| Fnil
| Fcons (name : string) (n : node) (rest : forest).

Scheme node_forest_ind := Induction for node Sort Prop
  with forest_node_ind := Induction for forest Sort Prop.
Combined Scheme node_forest_mutind from node_forest_ind, forest_node_ind.

Fixpoint find_child (f : forest) (name : string) : option node :=
  match f with
  | Fnil => None
  | Fcons x n rest => if x =? name then Some n else find_child rest name
  end.

Fixpoint descend (n : node) (l : list string) : option node :=
  match l with
  | [] => Some n
  | x :: r =>
      match n with
      | Directory _ _ kids =>
          match find_child kids x with
          | Some c => descend c r
          | None => None
          end
      | _ => None
      end
  end.

(** The state of the world a run observes and changes. *)
Record world : Type := mkWorld {
  fsroot : node;                  (* the directory [/] *)
  cwd : path;                     (* [fs::current_path()], absolute *)
  equivalent_strict : bool;       (* see [equivalent] *)
  zip_open_ok : bool;             (* may the ZIP writer open its output *)
  rename_denied : list bool       (* per [fs::rename] call: refused by the OS *)
}.

Definition absolute_of (w : world) (p : path) : path := cwd w // p.

(** [fs::weakly_canonical(p)].  Without symbolic links to existing targets
    the canonical form of the existing prefix is its normal form, so the
    result is the normal form of the absolute path. *)
Definition weakly_canonical (w : world) (p : path) : path :=
  lexically_normal (absolute_of w p).

(** The node a path names, if any. *)
Definition lookup (w : world) (p : path) : option node :=
  descend (fsroot w) (elems (weakly_canonical w p)).

(** File identity ([st_dev], [st_ino]) of an existing file. *)
Definition node_id (n : node) : option nat :=
  match n with
  | Regular i => Some i
  | Directory i _ _ => Some i
  | Special i => Some i
  | Dangling => None
  end.

Definition file_id (w : world) (p : path) : option nat :=
  match lookup w p with
  | Some n => node_id n
  | None => None
  end.

Definition node_is_directory (n : node) : bool :=
  match n with Directory _ _ _ => true | _ => false end.

Definition node_is_regular_file (n : node) : bool :=
  match n with Regular _ => true | _ => false end.

(** [fs::exists(p)], [fs::is_directory(p)], [fs::is_regular_file(p)]. *)
Definition fs_exists (w : world) (p : path) : bool :=
  match file_id w p with Some _ => true | None => false end.

Definition is_directory (w : world) (p : path) : bool :=
  match lookup w p with Some n => node_is_directory n | None => false end.

Definition is_regular_file (w : world) (p : path) : bool :=
  match lookup w p with Some n => node_is_regular_file n | None => false end.

(** [fs::equivalent(p1, p2)], the overload that throws.  When both paths
    exist the file identities are compared.  When neither exists every
    implementation reports an error.  When exactly one exists the C++17 text
    and libstdc++ return [false]; the later wording of the standard (LWG
    2937), libc++ and MSVC report an error: [equivalent_strict] selects
    this second behaviour. *)
Definition equivalent (w : world) (p1 p2 : path) : outcome bool :=
  match file_id w p1, file_id w p2 with
  | Some i, Some j => Ok (Nat.eqb i j)
  | None, None => Threw
  | _, _ => if equivalent_strict w then Threw else Ok false
  end.

(* ===================================================================== *)
(** ** The path matcher                                                   *)
(* ===================================================================== *)

(** [std::ranges::any_of] with a predicate that may throw. *)
Fixpoint any_of {A : Type} (f : A -> outcome bool) (l : list A)
  : outcome bool :=
  match l with
  | [] => Ok false
  | x :: r =>
      b <- f x ;;
      if b then Ok true else any_of f r
  end.

Definition should_ignore (w : world) (root_path current_path : path)
    (ignore_list : list path) : outcome bool :=
  match ignore_list with
  | [] => Ok false
  | _ =>
      any_of (fun ignore_rel =>
                let ignore_abs := weakly_canonical w (root_path // ignore_rel) in
                equivalent w current_path ignore_abs)
             ignore_list
  end.

(** The parameter [root_path] is not used by the function. *)
Definition make_ignore_set (root_path : path) (ignore_list : list string)
  : list path :=
  fold_left (fun rel_set p => set_insert (path_of_string p) rel_set)
            ignore_list [].

(* ===================================================================== *)
(** ** Changes to the file system                                         *)
(* ===================================================================== *)

Fixpoint max_ino_node (n : node) : nat :=
  match n with
  | Regular i => i
  | Directory i _ kids => Nat.max i (max_ino_forest kids)
  | Special i => i
  | Dangling => 0
  end
with max_ino_forest (f : forest) : nat :=
  match f with
  | Fnil => 0
  | Fcons _ n rest => Nat.max (max_ino_node n) (max_ino_forest rest)
  end.

(** A new directory entry goes after the existing ones. *)
Fixpoint add_child (name : string) (n : node) (f : forest) : forest :=
  match f with
  | Fnil => Fcons name n Fnil
  | Fcons x m rest => Fcons x m (add_child name n rest)
  end.

Fixpoint remove_child (name : string) (f : forest) : forest :=
  match f with
  | Fnil => Fnil
  | Fcons x m rest =>
      if String.eqb x name then rest else Fcons x m (remove_child name rest)
  end.

(** Replace the child called [name] by [h] applied to it. *)
Fixpoint map_child (name : string) (h : node -> option node) (f : forest)
  : option forest :=
  match f with
  | Fnil => None
  | Fcons x m rest =>
      if String.eqb x name then
        match h m with
        | Some m' => Some (Fcons x m' rest)
        | None => None
        end
      else
        match map_child name h rest with
        | Some rest' => Some (Fcons x m rest')
        | None => None
        end
  end.

(** Apply [g] to the entries of the directory reached by [dirpath]. *)
Fixpoint update_dir (dirpath : list string) (g : forest -> forest) (n : node)
  {struct dirpath} : option node :=
  match n with
  | Directory i d kids =>
      match dirpath with
      | [] => Some (Directory i d (g kids))
      | x :: r =>
          match map_child x (update_dir r g) kids with
          | Some kids' => Some (Directory i d kids')
          | None => None
          end
      end
  | _ => None
  end.

Definition with_fsroot (w : world) (r : node) : world :=
  mkWorld r (cwd w) (equivalent_strict w) (zip_open_ok w) (rename_denied w).

(** Opening a file for writing ([fopen(p, "wb")]): an existing regular or
    special file is opened, a missing file is created in an existing parent
    directory, anything else fails. *)
Definition create_file (w : world) (p : path) : option world :=
  let l := elems (weakly_canonical w p) in
  match descend (fsroot w) l with
  | Some (Regular _) | Some (Special _) => Some w
  | Some (Directory _ _ _) | Some Dangling => None
  | None =>
      match rev l with
      | [] => None
      | name :: _ =>
          let fresh := Regular (S (max_ino_node (fsroot w))) in
          match update_dir (removelast l) (add_child name fresh) (fsroot w) with
          | Some r => Some (with_fsroot w r)
          | None => None
          end
      end
  end.

(** [zip_open(p, level, 'w')]: [None] is the null handle. *)
Definition zip_open (w : world) (p : path) : option world :=
  if zip_open_ok w then create_file w p else None.

(** Moving the node at [src] to the free name [dst]. *)
Definition move_node (r : node) (src dst : list string) : option node :=
  match descend r src, descend r dst, rev src, rev dst with
  | Some n, None, sname :: _, dname :: _ =>
      match update_dir (removelast src) (remove_child sname) r with
      | Some r1 => update_dir (removelast dst) (add_child dname n) r1
      | None => None
      end
  | _, _, _, _ => None
  end.

(** [fs::rename(src, dst, ec)]: the new world and whether [ec] is clear.
    The operating system may refuse the call ([rename_denied]); a failed call
    leaves the tree as it was. *)
Definition fs_rename (w : world) (src dst : path) : world * bool :=
  let denied := match rename_denied w with d :: _ => d | [] => false end in
  let w1 := mkWorld (fsroot w) (cwd w) (equivalent_strict w) (zip_open_ok w)
                    (tl (rename_denied w)) in
  if denied then (w1, false)
  else
    match move_node (fsroot w) (elems (weakly_canonical w src))
                    (elems (weakly_canonical w dst)) with
    | Some r => (with_fsroot w1 r, true)
    | None => (w1, false)
    end.

(* ===================================================================== *)
(** ** Observable events                                                  *)
(* ===================================================================== *)

(** The lines the program prints.  The text of each is given beside it. *)
Inductive message : Type :=
| MsgZipOpenError                          (* "zip open error" *)
| MsgIgnoreDir (rel : path)                (* "ignore dir: " rel *)
| MsgIgnore (rel : path)                   (* "ignore: " rel *)
| MsgZipFileIsExist                        (* "zip file is exist" *)
| MsgCompleted (processed : Z) (zip : string)
    (* completion line: number of files processed and output path *)
| ErrRenameSourceMissing (p : path)        (* path to rename does not exist *)
| ErrRenameSourceNotDir (p : path)         (* target is not a directory *)
| ErrNewNameIllegal (name : string)        (* new name is illegal *)
| ErrRenameTargetExists (p : path)         (* renamed target already exists *)
| ErrRenameFailed                          (* rename failed: message *)
| WarnRestoreFailed (renamed original : string)
    (* warning: the original directory name could not be restored, please
       rename 'renamed' back to 'original' by hand; error: message *)
| ErrRootMissing (p : path)                (* path to compress does not exist *)
| ErrExtraMissing (p : path)               (* extra file does not exist *)
| ErrExtraNotRegular (p : path).           (* extra file is not a regular file *)

Inductive event : Type :=
| Cout (m : message)
| Cerr (m : message)
| ZipEntryOpen (name : string)
| ZipEntryFwrite (src : string)
| ZipEntryClose
| ZipClose
| OnProgress (percent : Z)
| BarMarkAsCompleted
| FsRename (src dst : path) (ok : bool).   (* a call of [fs::rename] *)

(* ===================================================================== *)
(** ** The tree walker ([fs::recursive_directory_iterator])               *)
(* ===================================================================== *)

(** A [fs::directory_entry]: its path and the file it names. *)
Record entry : Type := mkEntry {
  entry_path : path;
  entry_node : node
}.

Definition entry_is_directory (e : entry) : bool :=
  node_is_directory (entry_node e).
Definition entry_is_regular_file (e : entry) : bool :=
  node_is_regular_file (entry_node e).

Definition child_path (dir : path) (name : string) : path :=
  mkPath (absolute dir) (elems dir ++ [name]).

Section Walker.
Context {S : Type}.
(** The loop body: it returns what it printed, the new loop state, and
    whether it called [disable_recursion_pending]. *)
Variable body : entry -> S -> outcome (list event * S * bool).

(** Pre-order walk.  A directory is entered unless the body disabled the
    recursion or the directory cannot be listed
    ([skip_permission_denied]). *)
Fixpoint rdi_node (dir : path) (name : string) (n : node) (s : S)
  : outcome (list event * S) :=
  let e := mkEntry (child_path dir name) n in
  '(out, s1, no_recursion) <- body e s ;;
  match n with
  | Directory _ denied kids =>
      if no_recursion || denied then Ok (out, s1)
      else
        '(out', s2) <- rdi_forest (entry_path e) kids s1 ;;
        Ok (out ++ out', s2)
  | _ => Ok (out, s1)
  end
with rdi_forest (dir : path) (f : forest) (s : S)
  : outcome (list event * S) :=
  match f with
  | Fnil => Ok ([], s)
  | Fcons name n rest =>
      '(out, s1) <- rdi_node dir name n s ;;
      '(out', s2) <- rdi_forest dir rest s1 ;;
      Ok (out ++ out', s2)
  end.

(** The whole loop over [recursive_directory_iterator(root_path, ...)].
    Constructing the iterator throws when [root_path] is not a directory
    that can be opened, except for a permission error. *)
Definition rdi_loop (w : world) (root_path : path) (s : S)
  : outcome (list event * S) :=
  match lookup w root_path with
  | Some (Directory _ denied kids) =>
      if denied then Ok ([], s) else rdi_forest root_path kids s
  | _ => Threw
  end.
End Walker.

(* ===================================================================== *)
(** ** The archive builder ([compress])                                   *)
(* ===================================================================== *)

(** [b && m] where evaluating [m] may throw. *)
Definition and_then (b : bool) (m : outcome bool) : outcome bool :=
  if b then m else Ok false.

(** The notification after [processed++]. *)
Definition notify (total_files processed : Z) : list event :=
  if Z.ltb 0 total_files
     && (Z.eqb (int_rem processed 50) 0 || Z.eqb processed total_files)
  then
    let percent := int_div (int_mul processed 100) total_files in
    [OnProgress percent]
  else [].

Section Compress.
Variable w : world.
Variables zip_path root_path : path.
Variable ignore_set : list path.
Variable windows_style : bool.
Variable wrapper_folder : string.

(** Body of the counting loop; the loop state is [total_files]. *)
Definition dry_body (e : entry) (total_files : Z)
  : outcome (list event * Z * bool) :=
  c1 <- and_then (entry_is_directory e)
                 (should_ignore w root_path (entry_path e) ignore_set) ;;
  if c1 then Ok ([], total_files, true)
  else
    c2 <- and_then (negb (entry_is_directory e))
                   (should_ignore w root_path (entry_path e) ignore_set) ;;
    if c2 then Ok ([], total_files, false)
    else
      Ok ([], (if entry_is_regular_file e then int_incr total_files
               else total_files), false).

(** Body of the writing loop; the loop state is [processed]. *)
Definition live_body (total_files : Z) (e : entry) (processed : Z)
  : outcome (list event * Z * bool) :=
  let filepath := entry_path e in
  let relative_path := lexically_relative filepath root_path in
  c1 <- and_then (entry_is_directory e)
                 (should_ignore w root_path (entry_path e) ignore_set) ;;
  if c1 then Ok ([Cout (MsgIgnoreDir relative_path)], processed, true)
  else
    c2 <- and_then (negb (entry_is_directory e))
                   (should_ignore w root_path (entry_path e) ignore_set) ;;
    if c2 then Ok ([Cout (MsgIgnore relative_path)], processed, false)
    else if entry_is_regular_file e then
      same <- equivalent w filepath zip_path ;;
      if same then Ok ([Cout MsgZipFileIsExist], processed, false)
      else
        let entry_path :=
          if windows_style
          then wrapper_folder +++ generic_string relative_path
          else generic_string relative_path in
        let processed := int_incr processed in
        Ok ([ZipEntryOpen entry_path;
             ZipEntryFwrite (path_string filepath);
             ZipEntryClose]
            ++ notify total_files processed, processed, false)
    else if entry_is_directory e then
      let entry_path :=
        if windows_style
        then wrapper_folder +++ generic_string relative_path +++ "/"
        else generic_string relative_path +++ "/" in
      Ok ([ZipEntryOpen entry_path; ZipEntryClose], processed, false)
    else Ok ([], processed, false).

(** One iteration of the loop over [extra_files]. *)
Definition extra_step (total_files : Z) (x : path * string) (processed : Z)
  : outcome (list event * Z) :=
  let '(source_path, entry_name) := x in
  if negb (fs_exists w source_path) || negb (is_regular_file w source_path)
  then Ok ([], processed)
  else
    same <- equivalent w source_path zip_path ;;
    if same then Ok ([Cout MsgZipFileIsExist], processed)
    else
      let processed := int_incr processed in
      Ok ([ZipEntryOpen entry_name;
           ZipEntryFwrite (path_string source_path);
           ZipEntryClose]
          ++ notify total_files processed, processed).

Fixpoint extra_loop (total_files : Z) (l : list (path * string))
    (processed : Z) : outcome (list event * Z) :=
  match l with
  | [] => Ok ([], processed)
  | x :: r =>
      '(out, p1) <- extra_step total_files x processed ;;
      '(out', p2) <- extra_loop total_files r p1 ;;
      Ok (out ++ out', p2)
  end.
End Compress.

(** The counting loop of [compress]: [total_files] once it has finished. *)
Definition count_total (w : world) (root_path : path) (ignore_set : list path)
    (extra_files : list (path * string)) : outcome Z :=
  '(_, total_files) <-
    rdi_loop (dry_body w root_path ignore_set) w root_path
             (int_of_size (length extra_files)) ;;
  Ok total_files.

(** [compress(zip_path, root_path, ignore_set, windows_style, extra_files,
    on_progress)]: the world after the call, the events in order and the
    returned count.  A call of [on_progress] is the event [OnProgress]. *)
Definition compress (w : world) (zip_path root_path : path)
    (ignore_set : list path) (windows_style : bool)
    (extra_files : list (path * string))
  : outcome (world * list event * Z) :=
  match zip_open w zip_path with
  | None => Ok (w, [Cout MsgZipOpenError], 0%Z)
  | Some w1 =>
      let wrapper_folder :=
        if windows_style then path_string (filename root_path) +++ "/"
        else "" in
      total_files <- count_total w1 root_path ignore_set extra_files ;;
      '(out1, processed) <-
        rdi_loop (live_body w1 zip_path root_path ignore_set windows_style
                            wrapper_folder total_files) w1 root_path 0%Z ;;
      '(out2, processed) <-
        extra_loop w1 zip_path total_files extra_files processed ;;
      Ok (w1, out1 ++ out2 ++ [ZipClose], processed)
  end.

(* ===================================================================== *)
(** ** The command line ([main])                                          *)
(* ===================================================================== *)

(** The parsed sub-command with its options (parsing is done by CLI11). *)
Inductive command : Type :=
| CmdZip (zip_name dir_arg : string) (ignores extra_inputs : list string)
         (windows_style : bool)
| CmdRenameZip (rz_dir_arg rz_new_name : string) (rz_windows_style : bool).

(** [s.find_first_of(chars) != npos]. *)
Fixpoint mem_ascii (c : ascii) (chars : string) : bool :=
  match chars with
  | EmptyString => false
  | String d r => Ascii.eqb c d || mem_ascii c r
  end.

Fixpoint find_first_of (s chars : string) : bool :=
  match s with
  | EmptyString => false
  | String c r => mem_ascii c chars || find_first_of r chars
  end.

(** [fs::relative(p, base, ec)]; [None] stands for an error in [ec]. *)
Definition fs_relative (w : world) (p base : path) : option path :=
  Some (lexically_relative (weakly_canonical w p) (weakly_canonical w base)).

(** The archive name of an extra file, from its canonical path. *)
Definition extra_entry_name (w : world) (absolute_path : path) : string :=
  match fs_relative w absolute_path (cwd w) with
  | None => generic_string (filename absolute_path)
  | Some relative_path =>
      let normalized := lexically_normal relative_path in
      let rel_string := generic_string normalized in
      if String.eqb rel_string "" || String.prefix ".." rel_string
      then generic_string (filename absolute_path)
      else rel_string
  end.

(** The loop of [main] over [extra_inputs]: the bindings, or the diagnostic
    of the input that stops the run. *)
Fixpoint extra_bindings (w : world) (extra_inputs : list string)
  : message + list (path * string) :=
  match extra_inputs with
  | [] => inr []
  | extra :: rest =>
      if String.eqb extra "" then extra_bindings w rest
      else
        let input_path := path_of_string extra in
        let absolute_path := weakly_canonical w (cwd w // input_path) in
        if negb (fs_exists w absolute_path)
        then inl (ErrExtraMissing absolute_path)
        else if negb (is_regular_file w absolute_path)
        then inl (ErrExtraNotRegular absolute_path)
        else
          let entry_name := extra_entry_name w absolute_path in
          match extra_bindings w rest with
          | inl m => inl m
          | inr extra_files => inr ((absolute_path, entry_name) :: extra_files)
          end
  end.

(** A finished run: the world it leaves, what it did, its exit status. *)
Definition run : Type := world * list event * Z.

Definition main_rename_zip (w : world) (rz_dir_arg rz_new_name : string)
    (rz_windows_style : bool) : outcome run :=
  let original_path := weakly_canonical w (cwd w // path_of_string rz_dir_arg) in
  if negb (fs_exists w original_path)
  then Ok (w, [Cerr (ErrRenameSourceMissing original_path)], (-1)%Z)
  else if negb (is_directory w original_path)
  then Ok (w, [Cerr (ErrRenameSourceNotDir original_path)], (-1)%Z)
  else if String.eqb rz_new_name "" || find_first_of rz_new_name "\/:"
  then Ok (w, [Cerr (ErrNewNameIllegal rz_new_name)], (-1)%Z)
  else
    let parent := parent_path original_path in
    let renamed_path := parent // path_of_string rz_new_name in
    if fs_exists w renamed_path
    then Ok (w, [Cerr (ErrRenameTargetExists renamed_path)], (-1)%Z)
    else
      let ignore_set : list path := [] in
      let extra_files : list (path * string) := [] in
      let '(w1, ok) := fs_rename w original_path renamed_path in
      if negb ok
      then Ok (w1, [FsRename original_path renamed_path false;
                    Cerr ErrRenameFailed], (-1)%Z)
      else
        let zip_path := cwd w1 // path_of_string (rz_new_name +++ ".zip") in
        '(w2, out, processed) <-
          compress w1 zip_path renamed_path ignore_set rz_windows_style
                   extra_files ;;
        (* restore() *)
        let '(w3, restored) := fs_rename w2 renamed_path original_path in
        let warning :=
          if restored then []
          else [Cerr (WarnRestoreFailed (path_string renamed_path)
                                        (path_string original_path))] in
        Ok (w3,
            [FsRename original_path renamed_path true] ++ out
            ++ [BarMarkAsCompleted;
                FsRename renamed_path original_path restored]
            ++ warning
            ++ [Cout (MsgCompleted processed (path_string zip_path))],
            0%Z).

Definition main_zip (w : world) (zip_name dir_arg : string)
    (ignores extra_inputs : list string) (windows_style : bool)
  : outcome run :=
  let root_path := weakly_canonical w (cwd w // path_of_string dir_arg) in
  if negb (fs_exists w root_path)
  then Ok (w, [Cerr (ErrRootMissing root_path)], (-1)%Z)
  else
    let ignore_set :=
      match ignores with
      | [] => []
      | _ => make_ignore_set (cwd w) ignores
      end in
    match extra_bindings w extra_inputs with
    | inl m => Ok (w, [Cerr m], (-1)%Z)
    | inr extra_files =>
        let zip_path := cwd w // path_of_string zip_name in
        '(w1, out, processed) <-
          compress w zip_path root_path ignore_set windows_style extra_files ;;
        Ok (w1,
            out ++ [BarMarkAsCompleted;
                    Cout (MsgCompleted processed (path_string zip_path))],
            0%Z)
    end.

Definition main (w : world) (c : command) : outcome run :=
  match c with
  | CmdRenameZip rz_dir_arg rz_new_name rz_windows_style =>
      main_rename_zip w rz_dir_arg rz_new_name rz_windows_style
  | CmdZip zip_name dir_arg ignores extra_inputs windows_style =>
      main_zip w zip_name dir_arg ignores extra_inputs windows_style
  end.

(* ===================================================================== *)
(** ** Reading a trace                                                    *)
(* ===================================================================== *)

(** The names of the archive entries, in the order they were opened. *)
Fixpoint entry_names (tr : list event) : list string :=
  match tr with
  | [] => []
  | ZipEntryOpen name :: r => name :: entry_names r
  | _ :: r => entry_names r
  end.

(** The percentages passed to [on_progress], in order. *)
Fixpoint notifications (tr : list event) : list Z :=
  match tr with
  | [] => []
  | OnProgress p :: r => p :: notifications r
  | _ :: r => notifications r
  end.

(** The number of files whose contents were written. *)
Fixpoint files_written (tr : list event) : nat :=
  match tr with
  | [] => 0
  | ZipEntryFwrite _ :: r => S (files_written r)
  | _ :: r => files_written r
  end.

(* ===================================================================== *)
(** ** Sample worlds                                                      *)
(* ===================================================================== *)

Definition posix_world (r : node) (dir : list string) : world :=
  mkWorld r (mkPath true dir) false true [].

(** [/work/proj] holds [a.txt] and [sub/b.txt]; [/tmp/notes.md] lies
    outside. *)
Definition sample_root : node :=
  Directory 1 false
    (Fcons "work" (Directory 2 false
       (Fcons "proj" (Directory 3 false
          (Fcons "a.txt" (Regular 4)
          (Fcons "sub" (Directory 5 false
             (Fcons "b.txt" (Regular 6) Fnil))
           Fnil)))
        Fnil))
    (Fcons "tmp" (Directory 7 false
       (Fcons "notes.md" (Regular 8) Fnil))
     Fnil)).

Definition sample_world : world := posix_world sample_root ["work"].



Definition proj_path : path := mkPath true ["work"; "proj"].

(* ===================================================================== *)
(** ** The matcher as the specification words it                          *)
(* ===================================================================== *)

(** Two paths name the same existing file. *)
Definition identical (w : world) (p q : path) : bool :=
  match file_id w p, file_id w q with
  | Some i, Some j => Nat.eqb i j
  | _, _ => false
  end.





(* ===================================================================== *)
(** ** Auxiliary notions used in the statements                           *)
(* ===================================================================== *)


(** The string [<root's folder name>/]. *)
Definition wrapper_of (root_path : path) : string :=
  path_string (filename root_path) +++ "/".

(** Collecting the traversal candidates: the entries the walker yields that
    are not ignored, ignored directories being pruned. *)
Definition collect_body (w : world) (root_path : path) (ignore_set : list path)
    (e : entry) (acc : list entry) : outcome (list event * list entry * bool) :=
  ignored <- should_ignore w root_path (entry_path e) ignore_set ;;
  if ignored then Ok ([], acc, entry_is_directory e)
  else Ok ([], acc ++ [e], false).

Definition candidates (w : world) (root_path : path) (ignore_set : list path)
  : outcome (list entry) :=
  '(_, acc) <- rdi_loop (collect_body w root_path ignore_set) w root_path [] ;;
  Ok acc.

(** A file is eligible if it is a regular file that is not the destination
    archive. *)
Definition eligible (w : world) (zip_path : path) (e : entry) : bool :=
  entry_is_regular_file e && negb (identical w (entry_path e) zip_path).

(** The progress total as the specification defines it: the extra files plus
    the eligible files among the candidates. *)
Definition spec_total (w : world) (zip_path root_path : path)
    (ignore_set : list path) (extra_files : list (path * string))
  : outcome Z :=
  cs <- candidates w root_path ignore_set ;;
  Ok (Z.of_nat (length extra_files + length (filter (eligible w zip_path) cs))).

(** [sample_world] with the invocation directory inside the tree. *)
Definition inside_world : world := posix_world sample_root ["work"; "proj"].

(** [sample_world] where the ZIP writer cannot open its output. *)
Definition readonly_world : world :=
  mkWorld sample_root (mkPath true ["work"]) false false [].

(** [/work] holds the directory [..cache] with the file [x.txt]. *)
Definition dotdot_root : node :=
  Directory 1 false
    (Fcons "work" (Directory 2 false
       (Fcons "proj" (Directory 3 false (Fcons "a.txt" (Regular 4) Fnil))
       (Fcons "..cache" (Directory 5 false
          (Fcons "x.txt" (Regular 6) Fnil))
        Fnil)))
     Fnil).

Definition dotdot_world : world := posix_world dotdot_root ["work"].

(* ===================================================================== *)
(** ** Well-formed file systems                                           *)
(* ===================================================================== *)

(** A file name other than [.] and [..]. *)
Definition plain (s : string) : bool :=
  negb (String.eqb s ".") && negb (String.eqb s "..").

Definition absent (f : forest) (name : string) : bool :=
  match find_child f name with
  | None => true
  | Some _ => false
  end.

(** In a directory no name occurs twice and none is [.] or [..]. *)
Fixpoint wf_node (n : node) : bool :=
  match n with
  | Directory _ _ kids => wf_forest kids
  | _ => true
  end
with wf_forest (f : forest) : bool :=
  match f with
  | Fnil => true
  | Fcons x n rest => plain x && absent rest x && wf_node n && wf_forest rest
  end.

(** An absolute path in normal form. *)
Definition normal_path (p : path) : bool :=
  absolute p && forallb plain (elems p).

Definition wf_world (w : world) : bool :=
  node_is_directory (fsroot w) && wf_node (fsroot w) && normal_path (cwd w).

(** The entries of a directory, in order. *)
Fixpoint children (f : forest) : list (string * node) :=
  match f with
  | Fnil => []
  | Fcons x n rest => (x, n) :: children rest
  end.

(** Every path the walker forms below [dir] names the node it stands for. *)
Fixpoint coherent_node (w : world) (p : path) (n : node) : Prop :=
  match n with
  | Directory _ _ kids => coherent_forest w p kids
  | _ => True
  end
with coherent_forest (w : world) (dir : path) (f : forest) : Prop :=
  match f with
  | Fnil => True
  | Fcons x n rest =>
      file_id w (child_path dir x) = node_id n
      /\ coherent_node w (child_path dir x) n
      /\ coherent_forest w dir rest
  end.

(** The nodes below a directory that a walk without pruning reaches, in
    pre-order, each with its path relative to that directory. *)
Fixpoint walk_node (rel : list string) (name : string) (n : node)
  : list (list string * node) :=
  (rel ++ [name], n)
  :: match n with
     | Directory _ denied kids =>
         if denied then [] else walk_forest (rel ++ [name]) kids
     | _ => []
     end
with walk_forest (rel : list string) (f : forest)
  : list (list string * node) :=
  match f with
  | Fnil => []
  | Fcons name n rest => walk_node rel name n ++ walk_forest rel rest
  end.

(** The walk of the directory a path names. *)
Definition walk (w : world) (root_path : path) : list (list string * node) :=
  match lookup w root_path with
  | Some (Directory _ false kids) => walk_forest [] kids
  | _ => []
  end.

(** The number of nodes below a node, itself included. *)
Fixpoint node_count (n : node) : nat :=
  match n with
  | Directory _ _ kids => S (forest_count kids)
  | _ => 1
  end
with forest_count (f : forest) : nat :=
  match f with
  | Fnil => 0
  | Fcons _ n rest => node_count n + forest_count rest
  end.

Definition tree_size (w : world) (root_path : path) : nat :=
  match lookup w root_path with
  | Some n => node_count n
  | None => 0
  end.

(** The entry name of a node of the tree: its relative path with forward
    slashes, and a trailing slash for a directory. *)
Definition tree_entry_name (x : list string * node) : string :=
  String.concat "/" (fst x)
  +++ (if node_is_directory (snd x) then "/" else "").

(** A node that gets an entry: a directory, or a regular file other than
    the file of identity [zip_id]. *)
Definition archived (zip_id : option nat) (x : list string * node) : bool :=
  match snd x with
  | Directory _ _ _ => true
  | Regular i =>
      match zip_id with Some z => negb (Nat.eqb i z) | None => true end
  | _ => false
  end.

Definition archived_file (zip_id : option nat) (x : list string * node)
  : bool :=
  node_is_regular_file (snd x) && archived zip_id x.

(** What the progress bar is told about. *)
Inductive tick : Type :=
| Written                       (* the contents of a file were written *)
| Notified (percent : Z).       (* [on_progress(percent)] *)

Fixpoint ticks (tr : list event) : list tick :=
  match tr with
  | [] => []
  | ZipEntryFwrite _ :: r => Written :: ticks r
  | OnProgress p :: r => Notified p :: ticks r
  | _ :: r => ticks r
  end.

(** The ticks of [count] files written after [processed] others, as the
    code notifies. *)
Fixpoint code_ticks (total processed : Z) (count : nat) : list tick :=
  match count with
  | O => []
  | S c =>
      Written :: ticks (notify total (processed + 1))
      ++ code_ticks total (processed + 1) c
  end.

(** The ticks the specification asks for: after the [k]-th file a
    notification exactly when [k] is a multiple of 50 or equals the total. *)
Definition spec_ticks_of (total : Z) (k : nat) : list tick :=
  Written
  :: (if Z.eqb (Z.rem (Z.of_nat k) 50) 0 || Z.eqb (Z.of_nat k) total
      then [Notified (int_div (int_mul (Z.of_nat k) 100) total)]
      else []).

Definition spec_ticks (total : Z) (count : nat) : list tick :=
  flat_map (spec_ticks_of total) (seq 1 count).

(** The ticks with the percentage written as the mathematical floor of
    [k * 100 / total]. *)
Definition floor_ticks_of (total : Z) (k : nat) : list tick :=
  Written
  :: (if Z.eqb (Z.rem (Z.of_nat k) 50) 0 || Z.eqb (Z.of_nat k) total
      then [Notified (Z.of_nat k * 100 / total)%Z]
      else []).

Definition floor_ticks (total : Z) (count : nat) : list tick :=
  flat_map (floor_ticks_of total) (seq 1 count).

(** A directory [/big] with [n] regular files, named by their numbers. *)
Fixpoint many_files (n : nat) : forest :=
  match n with
  | O => Fnil
  | S k =>
      Fcons (NilEmpty.string_of_uint (Nat.to_uint k)) (Regular (10 + k))
            (many_files k)
  end.

Definition big_world : world :=
  posix_world
    (Directory 1 false
       (Fcons "big" (Directory 2 false (many_files (Z.to_nat 5001))) Fnil))
    [].

(** Every node below a directory, in pre-order, whether or not the
    directories on the way can be listed. *)
Fixpoint all_node (rel : list string) (name : string) (n : node)
  : list (list string * node) :=
  (rel ++ [name], n)
  :: match n with
     | Directory _ _ kids => all_forest (rel ++ [name]) kids
     | _ => []
     end
with all_forest (rel : list string) (f : forest)
  : list (list string * node) :=
  match f with
  | Fnil => []
  | Fcons name n rest => all_node rel name n ++ all_forest rel rest
  end.

(** The archive the specification describes for the tree at [root_path]:
    one entry per node, named by its relative path. *)
Definition spec_entry_names (w : world) (root_path : path) : list string :=
  match lookup w root_path with
  | Some (Directory _ _ kids) => map tree_entry_name (all_forest [] kids)
  | _ => []
  end.

(** The number of regular files in the tree at [root_path]. *)
Definition spec_regular_files (w : world) (root_path : path) : nat :=
  match lookup w root_path with
  | Some (Directory _ _ kids) =>
      length (filter (fun x => node_is_regular_file (snd x))
                     (all_forest [] kids))
  | _ => 0
  end.

(** [/work/proj] holds [a.txt], the FIFO [pipe], the archive [output.zip]
    of an earlier run, and the directory [locked], which cannot be listed,
    with [secret.txt] in it. *)
Definition mixed_root : node :=
  Directory 1 false
    (Fcons "work" (Directory 2 false
       (Fcons "proj" (Directory 3 false
          (Fcons "a.txt" (Regular 4)
          (Fcons "pipe" (Special 5)
          (Fcons "output.zip" (Regular 6)
          (Fcons "locked" (Directory 7 true
             (Fcons "secret.txt" (Regular 8) Fnil))
           Fnil)))))
        Fnil))
     Fnil).

Definition mixed_world : world := posix_world mixed_root ["work"; "proj"].

(** [sample_world] where the operating system lets the first rename through
    and refuses the second. *)
Definition stuck_world : world :=
  mkWorld sample_root (mkPath true ["work"]) false true [false; true].


(* ===================================================================== *)
(** ** Notions for the traversal under an ignore set                      *)
(* ===================================================================== *)

(** The nodes a walk keeps when [ignored] tells which relative paths the
    matcher rejects: an ignored node is dropped, and with it, for a
    directory, everything beneath it. *)
Fixpoint surv_node (ignored : list string -> bool) (rel : list string)
    (name : string) (n : node) : list (list string * node) :=
  if ignored (rel ++ [name]) then []
  else
    (rel ++ [name], n)
    :: match n with
       | Directory _ denied kids =>
           if denied then [] else surv_forest ignored (rel ++ [name]) kids
       | _ => []
       end
with surv_forest (ignored : list string -> bool) (rel : list string)
    (f : forest) : list (list string * node) :=
  match f with
  | Fnil => []
  | Fcons name n rest =>
      surv_node ignored rel name n ++ surv_forest ignored rel rest
  end.

Definition survivors (w : world) (root_path : path)
    (ignored : list string -> bool) : list (list string * node) :=
  match lookup w root_path with
  | Some (Directory _ false kids) => surv_forest ignored [] kids
  | _ => []
  end.

(** The path of the node found at [rel] below [root_path]. *)
Definition below (root_path : path) (rel : list string) : path :=
  mkPath (absolute root_path) (elems root_path ++ rel).

(** [ignored] gives the verdict of [should_ignore] on every node the walk
    can reach below [root_path]. *)
Definition verdicts (w : world) (root_path : path) (ignore_set : list path)
    (ignored : list string -> bool) : Prop :=
  forall x, In x (walk w root_path) ->
    should_ignore w root_path (below root_path (fst x)) ignore_set
    = Ok (ignored (fst x)).

Definition regular_node (x : list string * node) : bool :=
  node_is_regular_file (snd x).

(** The name of the entry of a tree node, with the wrapper folder in front
    when [windows_style] is set. *)
Definition wrapped_entry_name (windows_style : bool) (root_path : path)
    (x : list string * node) : string :=
  (if windows_style then wrapper_of root_path else "") +++ tree_entry_name x.

(** An extra file that the extra-file phase writes: it still exists, is a
    regular file, and is not the archive. *)
Definition extra_written (w : world) (zip_path : path) (x : path * string)
  : bool :=
  fs_exists w (fst x) && is_regular_file w (fst x)
  && negb (identical w (fst x) zip_path).

(** [/work/proj] holds [a.txt], [keep/k.txt], [skip/s.txt] and
    [skip/deep/d.txt]; [/work/extra.md] lies beside it. *)
Definition pruning_root : node :=
  Directory 1 false
    (Fcons "work" (Directory 2 false
       (Fcons "proj" (Directory 3 false
          (Fcons "a.txt" (Regular 4)
          (Fcons "keep" (Directory 5 false (Fcons "k.txt" (Regular 6) Fnil))
          (Fcons "skip" (Directory 7 false
             (Fcons "s.txt" (Regular 8)
             (Fcons "deep" (Directory 9 false
                (Fcons "d.txt" (Regular 10) Fnil))
              Fnil)))
           Fnil))))
       (Fcons "extra.md" (Regular 11) Fnil)))
     Fnil).

Definition pruning_world : world :=
  mkWorld pruning_root (mkPath true ["work"]) true true [].

(** The verdicts of the ignore set [skip; a.txt] in [pruning_world]. *)
Definition pruning_ignored (rel : list string) : bool :=
  match rel with
  | ["a.txt"] => true
  | ["skip"] => true
  | _ => false
  end.

(** [pruning_world] once the archive [/work/out.zip] has been opened. *)
Definition pruning_opened : world :=
  match zip_open pruning_world (mkPath true ["work"; "out.zip"]) with
  | Some w1 => w1
  | None => pruning_world
  end.

(** [sample_world] with the invocation directory [/], and absolute ignore
    paths. *)
Definition absolute_ignores : list path :=
  [mkPath true ["work"; "proj"; "sub"]; mkPath true ["tmp"; "notes.md"]].

(** The canonical absolute path [main] forms from a path given on the
    command line. *)
Definition canonical_input (w : world) (s : string) : path :=
  weakly_canonical w (cwd w // path_of_string s).



(** [sample_world] where the operating system refuses the first rename. *)
Definition refusing_world : world :=
  mkWorld sample_root (mkPath true ["work"]) false true [true].

(* ===================================================================== *)
(** ** The protocol of the ZIP writer                                     *)
(* ===================================================================== *)

(** Where the writer stands between two calls: no entry open, an entry
    just opened, or an entry whose contents have been written. *)
Inductive zip_state : Type := ZipIdle | ZipOpened | ZipWritten.

(** One event seen from a state; [None] is a call out of order.  Only the
    three calls on entries count: everything else may happen between two
    entries, and nothing else while an entry is open. *)
Definition zip_step (st : zip_state) (ev : event) : option zip_state :=
  match st, ev with
  | ZipIdle, ZipEntryOpen _ => Some ZipOpened
  | ZipIdle, (ZipEntryFwrite _ | ZipEntryClose | ZipClose) => None
  | ZipIdle, _ => Some ZipIdle
  | ZipOpened, ZipEntryFwrite _ => Some ZipWritten
  | ZipOpened, ZipEntryClose => Some ZipIdle
  | ZipWritten, ZipEntryClose => Some ZipIdle
  | _, _ => None
  end.

Fixpoint zip_run (st : zip_state) (tr : list event) : option zip_state :=
  match tr with
  | [] => Some st
  | ev :: r =>
      match zip_step st ev with
      | Some st' => zip_run st' r
      | None => None
      end
  end.


(* ===================================================================== *)
(** ** The path functions on the examples of their documentation          *)
(* ===================================================================== *)

Example lexically_normal_examples :
  map (fun s => generic_string (lexically_normal (path_of_string s)))
      ["a/./b/.."; "a/.."; "../a"; "/.."; "a//b/"; "/a/../../b"; ""]
  = ["a"; "."; "../a"; "/"; "a/b"; "/b"; ""].
Proof. reflexivity. Qed.

Example lexically_relative_examples :
  map (fun pb => generic_string
                   (lexically_relative (path_of_string (fst pb))
                                       (path_of_string (snd pb))))
      [("/a/d", "/a/b/c"); ("/a/b/c", "/a/d"); ("a/b/c", "a");
       ("a/b/c", "a/b/c/x/y"); ("a/b/c", "a/b/c"); ("a/b", "c/d");
       ("/a", "b")]
  = ["../../d"; "../b/c"; "b/c"; "../.."; "."; "../../a/b"; ""].
Proof. reflexivity. Qed.

(** The examples of the specification: ignoring [sub] leaves [a.txt]
    alone, and an extra file outside the invocation directory goes under its
    bare file name. *)
Example specification_examples :
  match main inside_world (CmdZip "../out.zip" "." ["sub"] [] false) with
  | Ok (_, tr, _) =>
      entry_names tr = ["a.txt"]
      /\ last tr ZipClose = Cout (MsgCompleted 1 "/work/proj/../out.zip")
  | Threw => False
  end
  /\ extra_bindings sample_world ["/tmp/notes.md"]
     = inr [(mkPath true ["tmp"; "notes.md"], "notes.md")].
Proof. vm_compute. repeat split; reflexivity. Qed.

(* ===================================================================== *)
(** ** Properties of the path matcher                                     *)
(* ===================================================================== *)

Lemma elems_compare_eq : forall a b, elems_compare a b = Eq -> a = b.
Proof.
  induction a as [|x a IH]; destruct b as [|y b]; simpl; try discriminate; auto.
  destruct (String.compare x y) eqn:E; try discriminate.
  intros H. apply String.compare_eq_iff in E. apply IH in H. congruence.
Qed.

Lemma path_compare_eq : forall p q, path_compare p q = Eq -> p = q.
Proof.
  intros [ap lp] [aq lq]; unfold path_compare; simpl.
  destruct ap, aq; try discriminate; intros H;
    apply elems_compare_eq in H; congruence.
Qed.

Lemma set_insert_In : forall x p s, In x (set_insert p s) <-> x = p \/ In x s.
Proof.
  intros x p s; induction s as [|q r IH]; simpl.
  - intuition.
  - destruct (path_compare p q) eqn:E; simpl.
    + apply path_compare_eq in E; subst. intuition.
    + intuition.
    + rewrite IH. intuition.
Qed.

Lemma fold_set_insert_In : forall x l acc,
  In x (fold_left (fun rel_set p => set_insert (path_of_string p) rel_set) l acc)
  <-> In x acc \/ In x (map path_of_string l).
Proof.
  intros x l; induction l as [|s l IH]; intros acc; simpl.
  - intuition.
  - rewrite IH, set_insert_In. intuition.
Qed.

Lemma make_ignore_set_In : forall base x l,
  In x (make_ignore_set base l) <-> In x (map path_of_string l).
Proof.
  intros; unfold make_ignore_set. rewrite fold_set_insert_In; simpl; intuition.
Qed.









(* ===================================================================== *)
(** ** The wrapper folder                                                 *)
(* ===================================================================== *)



Section WalkerMap.
Context {S : Type}.
Variables body1 body2 : entry -> S -> outcome (list event * S * bool).
Variable g : event -> event.
Hypothesis body_map : forall e s,
  body2 e s = '(out, s', b) <- body1 e s ;; Ok (map g out, s', b).


End WalkerMap.


(* ===================================================================== *)
(** ** Failure to open the destination                                    *)
(* ===================================================================== *)

(** C6, the claim as stated fails: when the destination cannot be opened
    the run does not abort with an error.  [compress] returns 0, and the
    [zip] command marks the bar completed, prints the completion line with
    the count 0 and exits with status 0. *)
Lemma zip_open_failure_is_not_fatal :
  main readonly_world (CmdZip "output.zip" "proj" [] [] false)
  = Ok (readonly_world,
        [Cout MsgZipOpenError; BarMarkAsCompleted;
         Cout (MsgCompleted 0 "/work/output.zip")],
        0%Z).
Proof. vm_compute; reflexivity. Qed.

(** C6, amended: if the destination archive cannot be opened, [compress]
    reports it, writes no entry, does not traverse, and returns 0 at once
    leaving the file system as it was; the [zip] command then reports
    completion with the count 0 and exits with status 0. *)
Theorem zip_open_failure_returns_zero :
  forall w zip_name dir_arg ignores extra_inputs windows_style extra_files
         ignore_set,
    fs_exists w (weakly_canonical w (cwd w // path_of_string dir_arg)) = true ->
    extra_bindings w extra_inputs = inr extra_files ->
    zip_open w (cwd w // path_of_string zip_name) = None ->
    compress w (cwd w // path_of_string zip_name)
             (weakly_canonical w (cwd w // path_of_string dir_arg))
             ignore_set windows_style extra_files
    = Ok (w, [Cout MsgZipOpenError], 0%Z)
    /\ main w (CmdZip zip_name dir_arg ignores extra_inputs windows_style)
       = Ok (w,
             [Cout MsgZipOpenError; BarMarkAsCompleted;
              Cout (MsgCompleted 0
                      (path_string (cwd w // path_of_string zip_name)))],
             0%Z).
Proof.
  intros w zip_name dir_arg ignores extra_inputs windows_style extra_files
         ignore_set Hroot Hextra Hopen.
  split.
  - unfold compress. now rewrite Hopen.
  - unfold main, main_zip. rewrite Hroot, Hextra. simpl.
    unfold compress. now rewrite Hopen.
Qed.

Lemma zip_open_failure_returns_zero_witness :
  compress readonly_world (cwd readonly_world // path_of_string "output.zip")
           (weakly_canonical readonly_world
              (cwd readonly_world // path_of_string "proj"))
           [] true []
  = Ok (readonly_world, [Cout MsgZipOpenError], 0%Z)
  /\ main readonly_world (CmdZip "output.zip" "proj" [] [] true)
     = Ok (readonly_world,
           [Cout MsgZipOpenError; BarMarkAsCompleted;
            Cout (MsgCompleted 0
                    (path_string
                       (cwd readonly_world // path_of_string "output.zip")))],
           0%Z).
Proof.
  apply (zip_open_failure_returns_zero readonly_world "output.zip" "proj"
           [] [] true [] []); reflexivity.
Defined.

(* ===================================================================== *)
(** ** Names of the extra files                                           *)
(* ===================================================================== *)

(** C7, at the failing input: the extra file [..cache/x.txt] lies below
    the invocation directory [/work], its relative path [..cache/x.txt]
    exists and does not lead upward, yet the entry is named [x.txt]: the
    test for a leading [..] is made on the characters of the string. *)
Theorem extra_name_of_dotdot_directory :
  fs_relative dotdot_world (mkPath true ["work"; "..cache"; "x.txt"])
              (cwd dotdot_world)
  = Some (mkPath false ["..cache"; "x.txt"])
  /\ extra_bindings dotdot_world ["..cache/x.txt"]
     = inr [(mkPath true ["work"; "..cache"; "x.txt"], "x.txt")]
  /\ entry_names
       (match main dotdot_world
                (CmdZip "output.zip" "proj" [] ["..cache/x.txt"] false) with
        | Ok (_, tr, _) => tr
        | Threw => []
        end)
     = ["a.txt"; "x.txt"].
Proof. repeat split; vm_compute; reflexivity. Qed.

(* ===================================================================== *)
(** ** The progress total                                                 *)
(* ===================================================================== *)

(** C3, at the failing input: run from inside [/work/proj] on [.], the
    destination [output.zip] lies in the tree.  The counting loop counts it
    (total 3) although the writing loop skips it, so two files are eligible,
    two are processed, and the final notification never comes. *)
Theorem total_counts_the_destination :
  exists w1,
    zip_open inside_world (mkPath true ["work"; "proj"; "output.zip"]) = Some w1
    /\ count_total w1 proj_path [] [] = Ok 3%Z
    /\ spec_total w1 (mkPath true ["work"; "proj"; "output.zip"]) proj_path [] []
       = Ok 2%Z
    /\ exists tr,
         main inside_world (CmdZip "output.zip" "." [] [] false)
         = Ok (w1, tr, 0%Z)
         /\ In (Cout (MsgCompleted 2 "/work/proj/output.zip")) tr
         /\ notifications tr = [].
Proof.
  eexists. split; [vm_compute; reflexivity|].
  split; [vm_compute; reflexivity|].
  split; [vm_compute; reflexivity|].
  eexists. split; [vm_compute; reflexivity|].
  split; [simpl; tauto|reflexivity].
Qed.

(* ===================================================================== *)
(** ** Paths in normal form                                               *)
(* ===================================================================== *)

Lemma plain_inv : forall x,
  plain x = true -> String.eqb x "." = false /\ String.eqb x ".." = false.
Proof.
  unfold plain; intros x H. apply andb_true_iff in H. destruct H as [H1 H2].
  apply negb_true_iff in H1, H2. auto.
Qed.

Lemma normal_elems_of_plain : forall abs l acc,
  forallb plain l = true -> normal_elems abs acc l = rev acc ++ l.
Proof.
  induction l as [|x l IH]; intros acc H; simpl.
  - now rewrite app_nil_r.
  - simpl in H. apply andb_true_iff in H. destruct H as [Hx Hl].
    destruct (plain_inv x Hx) as [E1 E2]. rewrite E1, E2.
    rewrite IH by exact Hl. simpl. now rewrite <- app_assoc.
Qed.

Lemma normal_elems_plain : forall l acc,
  forallb plain acc = true -> forallb plain (normal_elems true acc l) = true.
Proof.
  induction l as [|x l IH]; intros acc H; simpl.
  - apply forallb_forall. intros y Hy. apply in_rev in Hy.
    now apply (proj1 (forallb_forall plain acc) H).
  - destruct (String.eqb x ".") eqn:E1; [now apply IH|].
    destruct (String.eqb x "..") eqn:E2.
    + destruct acc as [|y acc']; [now apply IH|].
      simpl in H. apply andb_true_iff in H. destruct H as [Hy Ha].
      destruct (plain_inv y Hy) as [_ E]. rewrite E. now apply IH.
    + apply IH. simpl. rewrite H. unfold plain. now rewrite E1, E2.
Qed.

Lemma absolute_of_absolute : forall w p,
  absolute p = true -> absolute_of w p = p.
Proof. intros w p H; unfold absolute_of, path_append. now rewrite H. Qed.

Lemma lexically_normal_normal : forall p,
  absolute p = true -> normal_path (lexically_normal p) = true.
Proof.
  intros [a l] H; simpl in H; subst a. unfold lexically_normal; simpl.
  destruct l as [|x l]; [reflexivity|].
  pose proof (normal_elems_plain (x :: l) [] eq_refl) as Hn.
  destruct (normal_elems true [] (x :: l)) as [|y r]; [reflexivity|].
  unfold normal_path; simpl. exact Hn.
Qed.

Lemma weakly_canonical_normal : forall w p,
  normal_path (cwd w) = true -> normal_path (weakly_canonical w p) = true.
Proof.
  intros w p H. unfold weakly_canonical. apply lexically_normal_normal.
  unfold absolute_of, path_append.
  destruct (absolute p) eqn:E; [exact E|]. simpl.
  unfold normal_path in H. now apply andb_true_iff in H.
Qed.

Lemma weakly_canonical_id : forall w p,
  normal_path p = true -> weakly_canonical w p = p.
Proof.
  intros w [a l] H. unfold normal_path in H; simpl in H.
  apply andb_true_iff in H. destruct H as [Ha Hl]. subst a.
  unfold weakly_canonical. rewrite absolute_of_absolute by reflexivity.
  unfold lexically_normal; simpl.
  destruct l as [|x l]; [reflexivity|].
  rewrite normal_elems_of_plain by exact Hl. reflexivity.
Qed.

Lemma normal_child_path : forall dir x,
  normal_path dir = true -> plain x = true ->
  normal_path (child_path dir x) = true.
Proof.
  intros dir x H Hx. unfold normal_path in *; simpl.
  apply andb_true_iff in H. destruct H as [Ha Hl]. rewrite Ha; simpl.
  rewrite forallb_app, Hl; simpl. now rewrite Hx.
Qed.

(* ===================================================================== *)
(** ** Looking up nodes of a well-formed tree                             *)
(* ===================================================================== *)

Lemma descend_app : forall l l' r,
  descend r (l ++ l') =
  match descend r l with
  | Some m => descend m l'
  | None => None
  end.
Proof.
  induction l as [|x l IH]; intros l' r; simpl; [reflexivity|].
  destruct r as [i|i d kids|i|]; try reflexivity.
  destruct (find_child kids x); [apply IH|reflexivity].
Qed.

Lemma absent_child : forall f x n y,
  absent f y = true -> In (x, n) (children f) -> String.eqb y x = false.
Proof.
  induction f as [|z m rest IH]; simpl; intros x n y Ha Hin; [tauto|].
  unfold absent in Ha; simpl in Ha.
  destruct (String.eqb z y) eqn:E; [discriminate|].
  destruct Hin as [Hin|Hin].
  - inversion Hin; subst. now rewrite String.eqb_sym.
  - apply (IH x n y); [|exact Hin]. unfold absent.
    destruct (find_child rest y); [discriminate|reflexivity].
Qed.

Lemma find_child_unique : forall f x n,
  wf_forest f = true -> In (x, n) (children f) -> find_child f x = Some n.
Proof.
  induction f as [|z m rest IH]; simpl; intros x n Hwf Hin; [tauto|].
  apply andb_true_iff in Hwf. destruct Hwf as [Hwf Hrest].
  apply andb_true_iff in Hwf. destruct Hwf as [Hwf Hm].
  apply andb_true_iff in Hwf. destruct Hwf as [Hz Habs].
  destruct Hin as [Hin|Hin].
  - inversion Hin; subst. now rewrite String.eqb_refl.
  - rewrite (absent_child rest x n z Habs Hin). now apply IH.
Qed.

Lemma lookup_normal : forall w p,
  normal_path p = true -> lookup w p = descend (fsroot w) (elems p).
Proof. intros w p H; unfold lookup. now rewrite weakly_canonical_id. Qed.

Lemma descend_wf : forall l r n,
  wf_node r = true -> descend r l = Some n -> wf_node n = true.
Proof.
  induction l as [|x l IH]; simpl; intros r n Hwf H.
  - congruence.
  - destruct r as [i|i d kids|i|]; try discriminate.
    destruct (find_child kids x) as [c|] eqn:E; [|discriminate].
    apply (IH c n); [|exact H]. simpl in Hwf. clear - Hwf E.
    induction kids as [|z m rest IHk]; simpl in *; [discriminate|].
    apply andb_true_iff in Hwf. destruct Hwf as [Hwf Hrest].
    apply andb_true_iff in Hwf. destruct Hwf as [Hwf Hm].
    destruct (String.eqb z x); [congruence|now apply IHk].
Qed.

(** In a well-formed world the walk below a directory in normal form is
    coherent. *)
Lemma wf_coherent : forall w,
  (forall n p,
      wf_node n = true -> normal_path p = true ->
      descend (fsroot w) (elems p) = Some n -> coherent_node w p n)
  /\ (forall f p i d kids,
      wf_forest f = true -> normal_path p = true ->
      descend (fsroot w) (elems p) = Some (Directory i d kids) ->
      (forall x n, In (x, n) (children f) -> find_child kids x = Some n) ->
      coherent_forest w p f).
Proof.
  intros w. apply node_forest_mutind; simpl; auto.
  - intros i d kids IH p Hwf Hp Hd.
    apply (IH p i d kids Hwf Hp Hd). intros x n. now apply find_child_unique.
  - intros x n IHn rest IHr p i d kids Hwf Hp Hd Hin.
    apply andb_true_iff in Hwf. destruct Hwf as [Hwf Hrest].
    apply andb_true_iff in Hwf. destruct Hwf as [Hwf Hn].
    apply andb_true_iff in Hwf. destruct Hwf as [Hx Habs].
    assert (Hc : normal_path (child_path p x) = true)
      by now apply normal_child_path.
    assert (Hdc : descend (fsroot w) (elems (child_path p x)) = Some n).
    { simpl. rewrite descend_app, Hd. simpl.
      rewrite (Hin x n) by (left; reflexivity). reflexivity. }
    split; [|split].
    + unfold file_id. rewrite lookup_normal by exact Hc. now rewrite Hdc.
    + now apply IHn.
    + apply (IHr p i d kids Hrest Hp Hd). intros y m Hy. apply Hin. now right.
Qed.

Lemma wf_world_coherent : forall w root_path n,
  wf_world w = true -> normal_path root_path = true ->
  lookup w root_path = Some n -> coherent_node w root_path n.
Proof.
  intros w root_path n Hw Hp Hl.
  rewrite lookup_normal in Hl by exact Hp.
  apply (proj1 (wf_coherent w)); auto.
  unfold wf_world in Hw. apply andb_true_iff in Hw. destruct Hw as [Hw _].
  apply andb_true_iff in Hw. destruct Hw as [_ Hw].
  now apply (descend_wf (elems root_path) (fsroot w)).
Qed.

(* ===================================================================== *)
(** ** Changing a well-formed tree                                        *)
(* ===================================================================== *)

Lemma find_child_add_child : forall f name n y,
  find_child (add_child name n f) y =
  match find_child f y with
  | Some m => Some m
  | None => if String.eqb name y then Some n else None
  end.
Proof.
  induction f as [|x m rest IH]; intros name n y; simpl; [reflexivity|].
  destruct (String.eqb x y); [reflexivity|apply IH].
Qed.

Lemma absent_add_child : forall f name n y,
  absent (add_child name n f) y = absent f y && negb (String.eqb name y).
Proof.
  intros; unfold absent. rewrite find_child_add_child.
  destruct (find_child f y); [reflexivity|].
  destruct (String.eqb name y); reflexivity.
Qed.

Lemma wf_add_child : forall f name n,
  wf_forest f = true -> plain name = true -> absent f name = true ->
  wf_node n = true -> wf_forest (add_child name n f) = true.
Proof.
  induction f as [|x m rest IH]; intros name n Hwf Hp Ha Hn; simpl.
  - now rewrite Hp, Hn.
  - simpl in Hwf.
    apply andb_true_iff in Hwf. destruct Hwf as [Hwf Hrest].
    apply andb_true_iff in Hwf. destruct Hwf as [Hwf Hm].
    apply andb_true_iff in Hwf. destruct Hwf as [Hx Habs].
    unfold absent in Ha; simpl in Ha.
    destruct (String.eqb x name) eqn:E; [discriminate|].
    rewrite Hx, Hm, absent_add_child, Habs, String.eqb_sym, E; simpl.
    apply IH; auto.
Qed.

Lemma absent_remove_child : forall f x y,
  absent f y = true -> absent (remove_child x f) y = true.
Proof.
  induction f as [|z m rest IH]; intros x y H; simpl; [reflexivity|].
  unfold absent in H; simpl in H.
  destruct (String.eqb z y) eqn:E; [discriminate|].
  destruct (String.eqb z x).
  - exact H.
  - unfold absent; simpl. rewrite E. now apply IH.
Qed.

Lemma wf_remove_child : forall f x,
  wf_forest f = true -> wf_forest (remove_child x f) = true.
Proof.
  induction f as [|z m rest IH]; intros x Hwf; simpl; [reflexivity|].
  simpl in Hwf.
  apply andb_true_iff in Hwf. destruct Hwf as [Hwf Hrest].
  apply andb_true_iff in Hwf. destruct Hwf as [Hwf Hm].
  apply andb_true_iff in Hwf. destruct Hwf as [Hz Habs].
  destruct (String.eqb z x); [exact Hrest|].
  simpl. rewrite Hz, Hm, IH by exact Hrest.
  now rewrite absent_remove_child.
Qed.

Lemma map_child_find : forall f x h f',
  map_child x h f = Some f' ->
  exists m m',
    find_child f x = Some m /\ h m = Some m' /\ find_child f' x = Some m'
    /\ forall y, String.eqb x y = false -> find_child f' y = find_child f y.
Proof.
  induction f as [|z n rest IH]; intros x h f' H; simpl in H; [discriminate|].
  destruct (String.eqb z x) eqn:E.
  - destruct (h n) as [n'|] eqn:Eh; [|discriminate].
    inversion H; subst; clear H. exists n, n'. simpl. rewrite E.
    repeat split; auto. intros y Hy. apply String.eqb_eq in E; subst z.
    now rewrite Hy.
  - destruct (map_child x h rest) as [rest'|] eqn:Er; [|discriminate].
    inversion H; subst; clear H.
    destruct (IH x h rest' Er) as [m [m' [H1 [H2 [H3 H4]]]]].
    exists m, m'. simpl. rewrite E. repeat split; auto.
    intros y Hy. destruct (String.eqb z y); [reflexivity|now apply H4].
Qed.

Lemma map_child_absent : forall f x h f' y,
  map_child x h f = Some f' -> absent f' y = absent f y.
Proof.
  intros f x h f' y H.
  destruct (map_child_find f x h f' H) as [m [m' [H1 [H2 [H3 H4]]]]].
  unfold absent. destruct (String.eqb x y) eqn:E.
  - apply String.eqb_eq in E; subst y. now rewrite H1, H3.
  - now rewrite H4.
Qed.

Lemma map_child_wf : forall f x h f',
  wf_forest f = true -> map_child x h f = Some f' ->
  (forall m m', find_child f x = Some m -> h m = Some m' -> wf_node m' = true) ->
  wf_forest f' = true.
Proof.
  induction f as [|z n rest IH]; intros x h f' Hwf H Hh; simpl in H;
    [discriminate|].
  simpl in Hwf.
  apply andb_true_iff in Hwf. destruct Hwf as [Hwf Hrest].
  apply andb_true_iff in Hwf. destruct Hwf as [Hwf Hn].
  apply andb_true_iff in Hwf. destruct Hwf as [Hz Habs].
  simpl in Hh. destruct (String.eqb z x) eqn:E.
  - destruct (h n) as [n'|] eqn:Eh; [|discriminate].
    inversion H; subst; clear H. simpl.
    now rewrite Hz, Habs, Hrest, (Hh n n' eq_refl Eh).
  - destruct (map_child x h rest) as [rest'|] eqn:Er; [|discriminate].
    inversion H; subst; clear H. simpl.
    rewrite Hz, Hn, (map_child_absent rest x h rest' z Er), Habs.
    simpl. now apply (IH x h rest').
Qed.

Lemma find_child_wf : forall f x n,
  wf_forest f = true -> find_child f x = Some n -> wf_node n = true.
Proof.
  intros f x n Hwf H.
  apply (descend_wf [x] (Directory 0 false f) n Hwf). simpl. now rewrite H.
Qed.

Lemma update_dir_descend : forall l g r r',
  update_dir l g r = Some r' ->
  exists i d kids,
    descend r l = Some (Directory i d kids)
    /\ descend r' l = Some (Directory i d (g kids)).
Proof.
  induction l as [|x l IH]; intros g r r' H;
    destruct r as [i|i d kids|i|]; simpl in H; try discriminate.
  - inversion H; subst. exists i, d, kids. simpl; auto.
  - destruct (map_child x (update_dir l g) kids) as [kids'|] eqn:E;
      [|discriminate].
    inversion H; subst; clear H.
    destruct (map_child_find kids x _ kids' E) as [m [m' [H1 [H2 [H3 _]]]]].
    simpl. rewrite H1, H3. now apply IH.
Qed.

Lemma update_dir_is_directory : forall l g r r',
  update_dir l g r = Some r' -> node_is_directory r' = true.
Proof.
  intros l g r r' H. destruct r as [i|i d kids|i|]; destruct l; simpl in H;
    try discriminate.
  - inversion H; reflexivity.
  - destruct (map_child s (update_dir l g) kids); [|discriminate].
    inversion H; reflexivity.
Qed.

Lemma update_dir_wf : forall l g r r',
  wf_node r = true -> update_dir l g r = Some r' ->
  (forall i d kids, descend r l = Some (Directory i d kids) ->
                    wf_forest kids = true -> wf_forest (g kids) = true) ->
  wf_node r' = true.
Proof.
  induction l as [|x l IH]; intros g r r' Hwf H Hg;
    destruct r as [i|i d kids|i|]; simpl in H; try discriminate.
  - inversion H; subst. simpl. apply (Hg i d kids eq_refl Hwf).
  - destruct (map_child x (update_dir l g) kids) as [kids'|] eqn:E;
      [|discriminate].
    inversion H; subst; clear H. simpl. simpl in Hwf.
    apply (map_child_wf kids x _ kids' Hwf E).
    intros m m' Hm Hu. apply (IH g m m'); auto.
    + now apply (find_child_wf kids x).
    + intros j e ks Hd. apply (Hg j e ks). simpl. now rewrite Hm.
Qed.

Lemma rev_cons_split : forall (l : list string) name t,
  rev l = name :: t -> l = removelast l ++ [name].
Proof.
  intros l name t H.
  assert (E : l = rev t ++ [name])
    by (rewrite <- (rev_involutive l), H; reflexivity).
  rewrite E at 2. rewrite E at 1. now rewrite removelast_last.
Qed.

Lemma descend_parent_absent : forall r l name i d kids,
  descend r (l ++ [name]) = None ->
  descend r l = Some (Directory i d kids) -> absent kids name = true.
Proof.
  intros r l name i d kids H Hd. rewrite descend_app, Hd in H. simpl in H.
  unfold absent. destruct (find_child kids name); [discriminate|reflexivity].
Qed.

Lemma In_last_of_rev : forall (l : list string) name t,
  rev l = name :: t -> In name l.
Proof.
  intros l name t H. apply in_rev. rewrite H. now left.
Qed.

Lemma create_file_cwd : forall w p w1,
  create_file w p = Some w1 -> cwd w1 = cwd w.
Proof.
  intros w p w1 H. unfold create_file in H.
  destruct (descend (fsroot w) (elems (weakly_canonical w p)))
    as [[i|i d kids|i|]|]; try discriminate; try (inversion H; reflexivity).
  destruct (rev (elems (weakly_canonical w p))); [discriminate|].
  destruct (update_dir _ _ (fsroot w)); [|discriminate].
  inversion H; reflexivity.
Qed.

(** Opening the archive keeps the file system well-formed. *)
Lemma create_file_wf : forall w p w1,
  wf_world w = true -> create_file w p = Some w1 -> wf_world w1 = true.
Proof.
  intros w p w1 Hw H. unfold create_file in H.
  set (l := elems (weakly_canonical w p)) in *.
  destruct (descend (fsroot w) l) as [[i|i d kids|i|]|] eqn:Ed;
    try discriminate; try (inversion H; subst; exact Hw).
  destruct (rev l) as [|name t] eqn:Er; [discriminate|].
  destruct (update_dir (removelast l) _ (fsroot w)) as [r|] eqn:Eu;
    [|discriminate].
  inversion H; subst; clear H.
  unfold wf_world in *. simpl.
  apply andb_true_iff in Hw. destruct Hw as [Hw Hcwd].
  apply andb_true_iff in Hw. destruct Hw as [Hdir Hwf].
  rewrite Hcwd, (update_dir_is_directory _ _ _ _ Eu). simpl.
  rewrite andb_true_r.
  apply (update_dir_wf _ _ _ _ Hwf Eu).
  intros i d kids Hd Hk. apply wf_add_child; auto.
  - pose proof (weakly_canonical_normal w p Hcwd) as Hn.
    unfold normal_path in Hn. apply andb_true_iff in Hn. destruct Hn as [_ Hn].
    apply (proj1 (forallb_forall plain l) Hn).
    now apply (In_last_of_rev l name t).
  - apply (descend_parent_absent (fsroot w) (removelast l) name i d); auto.
    now rewrite <- (rev_cons_split l name t Er).
Qed.

(** After it has been opened the archive exists. *)
Lemma create_file_exists : forall w p w1,
  create_file w p = Some w1 -> exists z, file_id w1 p = Some z.
Proof.
  intros w p w1 H. pose proof (create_file_cwd w p w1 H) as Hc.
  unfold file_id, lookup.
  replace (weakly_canonical w1 p) with (weakly_canonical w p)
    by (unfold weakly_canonical, absolute_of; now rewrite Hc).
  unfold create_file in H.
  set (l := elems (weakly_canonical w p)) in *.
  destruct (descend (fsroot w) l) as [[i|i d kids|i|]|] eqn:Ed;
    try discriminate;
    try (inversion H; subst; rewrite Ed; simpl; eauto).
  destruct (rev l) as [|name t] eqn:Er; [discriminate|].
  destruct (update_dir (removelast l) _ (fsroot w)) as [r|] eqn:Eu;
    [|discriminate].
  inversion H; subst; clear H. simpl.
  destruct (update_dir_descend _ _ _ _ Eu) as [i [d [kids [H1 H2]]]].
  rewrite (rev_cons_split l name t Er), descend_app, H2. simpl.
  rewrite find_child_add_child.
  pose proof (descend_parent_absent (fsroot w) (removelast l) name i d kids)
    as Ha.
  rewrite <- (rev_cons_split l name t Er) in Ha. specialize (Ha Ed H1).
  unfold absent in Ha. destruct (find_child kids name); [discriminate|].
  rewrite String.eqb_refl. simpl. eauto.
Qed.

Lemma zip_open_wf : forall w p w1,
  wf_world w = true -> zip_open w p = Some w1 -> wf_world w1 = true.
Proof.
  intros w p w1 Hw H. unfold zip_open in H.
  destruct (zip_open_ok w); [|discriminate]. now apply (create_file_wf w p).
Qed.

Lemma zip_open_exists : forall w p w1,
  zip_open w p = Some w1 -> exists z, file_id w1 p = Some z.
Proof.
  intros w p w1 H. unfold zip_open in H.
  destruct (zip_open_ok w); [|discriminate]. now apply (create_file_exists w p).
Qed.

(* ===================================================================== *)
(** ** Counting in [int]                                                  *)
(* ===================================================================== *)

Lemma wrap32_small : forall v : Z,
  (int_min <= v <= int_max)%Z -> wrap32 v = v.
Proof.
  intros v H. unfold wrap32, int_min, int_max in *.
  rewrite Z.mod_small; lia.
Qed.

Lemma int_incr_small : forall v : Z,
  (0 <= v)%Z -> (v + 1 <= int_max)%Z -> int_incr v = (v + 1)%Z.
Proof.
  intros v H0 H1. unfold int_incr, int_add. apply wrap32_small.
  unfold int_min, int_max in *. lia.
Qed.

Lemma int_of_size_small : forall n : nat,
  (Z.of_nat n <= int_max)%Z -> int_of_size n = Z.of_nat n.
Proof.
  intros n H. unfold int_of_size. apply wrap32_small.
  unfold int_min, int_max in *. lia.
Qed.

(* ===================================================================== *)
(** ** Reading traces piecewise                                           *)
(* ===================================================================== *)

Lemma ticks_app : forall a b, ticks (a ++ b) = ticks a ++ ticks b.
Proof.
  induction a as [|ev a IH]; intros b; simpl; [reflexivity|].
  destruct ev; simpl; now rewrite ?IH.
Qed.

Lemma entry_names_app : forall a b,
  entry_names (a ++ b) = entry_names a ++ entry_names b.
Proof.
  induction a as [|ev a IH]; intros b; simpl; [reflexivity|].
  destruct ev; simpl; now rewrite ?IH.
Qed.

Lemma notifications_app : forall a b,
  notifications (a ++ b) = notifications a ++ notifications b.
Proof.
  induction a as [|ev a IH]; intros b; simpl; [reflexivity|].
  destruct ev; simpl; now rewrite ?IH.
Qed.

Lemma files_written_app : forall a b,
  files_written (a ++ b) = files_written a + files_written b.
Proof.
  induction a as [|ev a IH]; intros b; simpl; [reflexivity|].
  destruct ev; simpl; now rewrite ?IH.
Qed.

Lemma entry_names_notify : forall total p, entry_names (notify total p) = [].
Proof. intros; unfold notify. destruct (_ && _); reflexivity. Qed.

Lemma files_written_notify : forall total p, files_written (notify total p) = 0.
Proof. intros; unfold notify. destruct (_ && _); reflexivity. Qed.

Lemma code_ticks_app : forall total a b p,
  code_ticks total p (a + b)
  = code_ticks total p a ++ code_ticks total (p + Z.of_nat a) b.
Proof.
  induction a as [|a IH]; intros b p.
  - simpl. now rewrite Z.add_0_r.
  - cbn [Nat.add code_ticks]. rewrite IH, <- app_comm_cons, <- app_assoc.
    replace (p + Z.of_nat (S a))%Z with (p + 1 + Z.of_nat a)%Z by lia.
    reflexivity.
Qed.

(* ===================================================================== *)
(** ** The two loop bodies, by cases on the ignore test                   *)
(* ===================================================================== *)

Lemma dry_body_cases : forall w root_path ignore_set e t,
  dry_body w root_path ignore_set e t =
  match should_ignore w root_path (entry_path e) ignore_set with
  | Threw => Threw
  | Ok true => Ok ([], t, entry_is_directory e)
  | Ok false =>
      Ok ([], (if entry_is_regular_file e then int_incr t else t), false)
  end.
Proof.
  intros. unfold dry_body.
  destruct (entry_is_directory e);
    destruct (should_ignore w root_path (entry_path e) ignore_set) as [[|]|];
    reflexivity.
Qed.

Lemma live_body_cases :
  forall w zip_path root_path ignore_set ws wr total e p,
  live_body w zip_path root_path ignore_set ws wr total e p =
  let rel := lexically_relative (entry_path e) root_path in
  match should_ignore w root_path (entry_path e) ignore_set with
  | Threw => Threw
  | Ok true =>
      Ok ([Cout (if entry_is_directory e then MsgIgnoreDir rel
                 else MsgIgnore rel)], p, entry_is_directory e)
  | Ok false =>
      if entry_is_regular_file e then
        same <- equivalent w (entry_path e) zip_path ;;
        if same then Ok ([Cout MsgZipFileIsExist], p, false)
        else
          Ok ([ZipEntryOpen (if ws then wr +++ generic_string rel
                             else generic_string rel);
               ZipEntryFwrite (path_string (entry_path e));
               ZipEntryClose]
              ++ notify total (int_incr p), int_incr p, false)
      else if entry_is_directory e then
        Ok ([ZipEntryOpen (if ws then wr +++ generic_string rel +++ "/"
                           else generic_string rel +++ "/");
             ZipEntryClose], p, false)
      else Ok ([], p, false)
  end.
Proof.
  intros. unfold live_body.
  destruct (entry_is_directory e);
    destruct (should_ignore w root_path (entry_path e) ignore_set) as [[|]|];
    reflexivity.
Qed.

Lemma rdi_node_eq :
  forall (S : Type) (body : entry -> S -> outcome (list event * S * bool))
         dir name n s,
  rdi_node body dir name n s =
  '(out, s1, no_recursion) <- body (mkEntry (child_path dir name) n) s ;;
  match n with
  | Directory _ denied kids =>
      if no_recursion || denied then Ok (out, s1)
      else
        '(out', s2) <- rdi_forest body (child_path dir name) kids s1 ;;
        Ok (out ++ out', s2)
  | _ => Ok (out, s1)
  end.
Proof. intros; destruct n; reflexivity. Qed.

Lemma rdi_forest_cons :
  forall (S : Type) (body : entry -> S -> outcome (list event * S * bool))
         dir name n rest s,
  rdi_forest body dir (Fcons name n rest) s =
  '(out, s1) <- rdi_node body dir name n s ;;
  '(out', s2) <- rdi_forest body dir rest s1 ;;
  Ok (out ++ out', s2).
Proof. reflexivity. Qed.

(* ===================================================================== *)
(** ** The counting loop and the writing loop walk alike                  *)
(* ===================================================================== *)

Ltac no_files :=
  eexists; exists 0%nat;
  split; [rewrite Z.add_0_r; reflexivity|];
  split; [lia|]; split; [lia|reflexivity].

Section Passes.
Variable w : world.
Variables zip_path root_path : path.
Variable ignore_set : list path.
Variable windows_style : bool.
Variable wrapper_folder : string.
Variable total : Z.
Variable z : nat.
Hypothesis zip_exists : file_id w zip_path = Some z.

Local Abbreviation dry := (dry_body w root_path ignore_set).
Local Abbreviation live :=
  (live_body w zip_path root_path ignore_set windows_style wrapper_folder
             total).

(** Where the counting loop returns, the writing loop returns too; it
    writes no more files than were counted, and the ticks it produces are
    those of writing that many files one after the other. *)
Lemma passes_agree :
  (forall n dir name t p,
      file_id w (child_path dir name) = node_id n ->
      coherent_node w (child_path dir name) n ->
      (0 <= t)%Z -> (t + Z.of_nat (node_count n) <= int_max)%Z ->
      (0 <= p)%Z -> (p + Z.of_nat (node_count n) <= int_max)%Z ->
      match rdi_node dry dir name n t with
      | Threw => True
      | Ok (_, t') =>
          exists out c,
            rdi_node live dir name n p = Ok (out, (p + Z.of_nat c)%Z)
            /\ (Z.of_nat c <= t' - t)%Z
            /\ (t' - t <= Z.of_nat (node_count n))%Z
            /\ ticks out = code_ticks total p c
      end)
  /\ (forall f dir t p,
      coherent_forest w dir f ->
      (0 <= t)%Z -> (t + Z.of_nat (forest_count f) <= int_max)%Z ->
      (0 <= p)%Z -> (p + Z.of_nat (forest_count f) <= int_max)%Z ->
      match rdi_forest dry dir f t with
      | Threw => True
      | Ok (_, t') =>
          exists out c,
            rdi_forest live dir f p = Ok (out, (p + Z.of_nat c)%Z)
            /\ (Z.of_nat c <= t' - t)%Z
            /\ (t' - t <= Z.of_nat (forest_count f))%Z
            /\ ticks out = code_ticks total p c
      end).
Proof.
  apply node_forest_mutind.
  - (* regular file *)
    intros i dir name t p Hid _ Ht0 Ht Hp0 Hp.
    rewrite !rdi_node_eq, dry_body_cases, live_body_cases.
    unfold entry_is_directory, entry_is_regular_file.
    cbn [entry_path entry_node node_is_directory node_is_regular_file
         node_count] in *.
    destruct (should_ignore w root_path (child_path dir name) ignore_set)
      as [[|]|]; cbn [bind]; [no_files| |exact I].
    rewrite (int_incr_small t), (int_incr_small p) by lia.
    unfold equivalent. rewrite Hid, zip_exists. cbn [node_id bind].
    destruct (Nat.eqb i z); cbn [bind]; [no_files|].
    eexists; exists 1%nat. split; [reflexivity|].
    split; [lia|]. split; [lia|].
    cbn [app ticks code_ticks]. now rewrite app_nil_r.
  - (* directory *)
    intros i d kids IH dir name t p Hid Hco Ht0 Ht Hp0 Hp.
    rewrite !rdi_node_eq, dry_body_cases, live_body_cases.
    unfold entry_is_directory, entry_is_regular_file.
    cbn [entry_path entry_node node_is_directory node_is_regular_file
         node_count coherent_node] in *.
    destruct (should_ignore w root_path (child_path dir name) ignore_set)
      as [[|]|]; cbn [bind orb]; [no_files| |exact I].
    destruct d; cbn [bind]; [no_files|].
    specialize (IH (child_path dir name) t p Hco Ht0).
    assert (Hk : (t + Z.of_nat (forest_count kids) <= int_max)%Z) by lia.
    assert (Hk' : (p + Z.of_nat (forest_count kids) <= int_max)%Z) by lia.
    specialize (IH Hk Hp0 Hk').
    destruct (rdi_forest dry (child_path dir name) kids t) as [[o t']|];
      cbn [bind]; [|exact I].
    destruct IH as [out [c [E [H1 [H2 H3]]]]].
    rewrite E; cbn [bind]. eexists; exists c.
    split; [reflexivity|]. split; [lia|]. split; [lia|].
    rewrite ticks_app. exact H3.
  - (* other file *)
    intros i dir name t p Hid _ Ht0 Ht Hp0 Hp.
    rewrite !rdi_node_eq, dry_body_cases, live_body_cases.
    unfold entry_is_directory, entry_is_regular_file.
    cbn [entry_path entry_node node_is_directory node_is_regular_file
         node_count] in *.
    destruct (should_ignore w root_path (child_path dir name) ignore_set)
      as [[|]|]; cbn [bind]; [no_files|no_files|exact I].
  - (* dangling link *)
    intros dir name t p Hid _ Ht0 Ht Hp0 Hp.
    rewrite !rdi_node_eq, dry_body_cases, live_body_cases.
    unfold entry_is_directory, entry_is_regular_file.
    cbn [entry_path entry_node node_is_directory node_is_regular_file
         node_count] in *.
    destruct (should_ignore w root_path (child_path dir name) ignore_set)
      as [[|]|]; cbn [bind]; [no_files|no_files|exact I].
  - (* empty directory listing *)
    intros dir t p _ Ht0 Ht Hp0 Hp. cbn [rdi_forest forest_count].
    exists [], 0%nat. split; [now rewrite Z.add_0_r|].
    split; [lia|]. split; [lia|reflexivity].
  - intros name n IHn rest IHr dir t p Hco Ht0 Ht Hp0 Hp.
    rewrite !rdi_forest_cons.
    cbn [coherent_forest forest_count] in *.
    destruct Hco as [Hid [Hn Hr]].
    assert (Hn1 : (t + Z.of_nat (node_count n) <= int_max)%Z) by lia.
    assert (Hn2 : (p + Z.of_nat (node_count n) <= int_max)%Z) by lia.
    specialize (IHn dir name t p Hid Hn Ht0 Hn1 Hp0 Hn2).
    destruct (rdi_node dry dir name n t) as [[o1 t1]|]; cbn [bind];
      [|exact I].
    destruct IHn as [out1 [c1 [E1 [A1 [B1 T1]]]]].
    rewrite E1; cbn [bind].
    assert (Hr0 : (0 <= t1)%Z) by lia.
    assert (Hr1 : (t1 + Z.of_nat (forest_count rest) <= int_max)%Z) by lia.
    assert (Hr2 : (0 <= p + Z.of_nat c1)%Z) by lia.
    assert (Hr3 : (p + Z.of_nat c1 + Z.of_nat (forest_count rest)
                   <= int_max)%Z) by lia.
    specialize (IHr dir t1 (p + Z.of_nat c1)%Z Hr Hr0 Hr1 Hr2 Hr3).
    destruct (rdi_forest dry dir rest t1) as [[o2 t2]|]; cbn [bind];
      [|exact I].
    destruct IHr as [out2 [c2 [E2 [A2 [B2 T2]]]]].
    rewrite E2; cbn [bind]. exists (out1 ++ out2), (c1 + c2)%nat.
    split; [do 2 f_equal; lia|]. split; [lia|]. split; [lia|].
    now rewrite ticks_app, code_ticks_app, T1, T2.
Qed.
End Passes.

(* ===================================================================== *)
(** ** The loop over the extra files                                      *)
(* ===================================================================== *)

Lemma extra_loop_ticks : forall w zip_path total z,
  file_id w zip_path = Some z ->
  forall l p,
  (0 <= p)%Z -> (p + Z.of_nat (length l) <= int_max)%Z ->
  exists out c,
    extra_loop w zip_path total l p = Ok (out, (p + Z.of_nat c)%Z)
    /\ (c <= length l)%nat
    /\ ticks out = code_ticks total p c.
Proof.
  intros w zip_path total z Hz l.
  induction l as [|[src name] l IH]; intros p Hp0 Hp.
  - exists [], 0%nat. simpl. rewrite Z.add_0_r. auto.
  - cbn [extra_loop length] in *. unfold extra_step.
    assert (Hskip : forall evs,
               ticks evs = [] ->
               exists out c,
                 ('(out', p2) <- extra_loop w zip_path total l p ;;
                  Ok (evs ++ out', p2)) = Ok (out, (p + Z.of_nat c)%Z)
                 /\ (c <= S (length l))%nat
                 /\ ticks out = code_ticks total p c).
    { intros evs Hevs.
      destruct (IH p Hp0) as [out [c [E [Hc Ht]]]]; [lia|].
      rewrite E; cbn [bind]. exists (evs ++ out), c.
      split; [reflexivity|]. split; [lia|].
      now rewrite ticks_app, Hevs. }
    destruct (negb (fs_exists w src) || negb (is_regular_file w src)) eqn:Eg.
    + cbn [bind]. apply (Hskip []). reflexivity.
    + apply orb_false_iff in Eg. destruct Eg as [Ee _].
      apply negb_false_iff in Ee. unfold fs_exists in Ee.
      unfold equivalent.
      destruct (file_id w src) as [i|]; [|discriminate].
      rewrite Hz. cbn [bind].
      destruct (Nat.eqb i z); cbn [bind].
      * apply (Hskip [Cout MsgZipFileIsExist]). reflexivity.
      * rewrite (int_incr_small p) by lia.
        destruct (IH (p + 1)%Z) as [out [c [E [Hc Ht]]]]; [lia|lia|].
        rewrite E; cbn [bind]. eexists; exists (S c).
        split; [do 2 f_equal; lia|]. split; [lia|].
        cbn [app ticks code_ticks]. now rewrite ticks_app, Ht.
Qed.

(* ===================================================================== *)
(** ** Ticks as the code produces them and as the specification asks      *)
(* ===================================================================== *)

Lemma files_written_of_ticks : forall tr,
  files_written tr
  = length (filter (fun t => match t with Written => true | _ => false end)
                   (ticks tr)).
Proof.
  induction tr as [|ev tr IH]; [reflexivity|].
  destruct ev; simpl; now rewrite ?IH.
Qed.

Lemma code_ticks_written : forall total c p,
  length (filter (fun t => match t with Written => true | _ => false end)
                 (code_ticks total p c)) = c.
Proof.
  induction c as [|c IH]; intros p; [reflexivity|].
  cbn [code_ticks filter length]. rewrite filter_app, length_app, IH.
  unfold notify. destruct (_ && _); reflexivity.
Qed.

Lemma ticks_nil_notifications : forall tr,
  ticks tr = [] -> notifications tr = [].
Proof.
  induction tr as [|ev tr IH]; [reflexivity|].
  destruct ev; simpl; intros H; try discriminate; now apply IH.
Qed.

Lemma code_ticks_spec : forall total c p,
  (Z.of_nat (p + c) <= total)%Z ->
  code_ticks total (Z.of_nat p) c
  = flat_map (spec_ticks_of total) (seq (S p) c).
Proof.
  induction c as [|c IH]; intros p H; [reflexivity|].
  cbn [code_ticks seq flat_map].
  replace (Z.of_nat p + 1)%Z with (Z.of_nat (S p)) by lia.
  rewrite IH by lia.
  assert (Hn : ticks (notify total (Z.of_nat (S p)))
               = if Z.eqb (Z.rem (Z.of_nat (S p)) 50) 0
                    || Z.eqb (Z.of_nat (S p)) total
                 then [Notified (int_div (int_mul (Z.of_nat (S p)) 100) total)]
                 else []).
  { unfold notify, int_rem.
    replace (Z.ltb 0 total) with true by (symmetry; apply Z.ltb_lt; lia).
    cbn [andb].
    destruct (Z.eqb (Z.rem (Z.of_nat (S p)) 50) 0
              || Z.eqb (Z.of_nat (S p)) total); reflexivity. }
  rewrite Hn. reflexivity.
Qed.

(* ===================================================================== *)
(** ** Progress notifications                                             *)
(* ===================================================================== *)

(** The writing phase of [compress] in a well-formed world, once the
    counting loop has returned [total]. *)
Lemma compress_ticks :
  forall w zip_path root_path ignore_set windows_style extra_files w1 total,
    wf_world w = true ->
    normal_path root_path = true ->
    zip_open w zip_path = Some w1 ->
    count_total w1 root_path ignore_set extra_files = Ok total ->
    (Z.of_nat (length extra_files + tree_size w1 root_path) <= int_max)%Z ->
    exists tr c,
      compress w zip_path root_path ignore_set windows_style extra_files
      = Ok (w1, tr, Z.of_nat c)
      /\ (Z.of_nat c <= total)%Z
      /\ (total <= Z.of_nat (length extra_files + tree_size w1 root_path))%Z
      /\ ticks tr = code_ticks total 0 c.
Proof.
  intros w zip_path root_path ignore_set windows_style extra_files w1 total
         Hwf Hroot Hopen Hcount Hsize.
  destruct (zip_open_exists w zip_path w1 Hopen) as [z Hz].
  pose proof (zip_open_wf w zip_path w1 Hwf Hopen) as Hwf1.
  unfold compress. rewrite Hopen, Hcount. cbn [bind].
  unfold count_total, rdi_loop in Hcount. unfold rdi_loop.
  unfold tree_size in Hsize.
  destruct (lookup w1 root_path) as [[i|i d kids|i|]|] eqn:El;
    try discriminate.
  assert (Hlen : int_of_size (length extra_files)
                 = Z.of_nat (length extra_files))
    by (apply int_of_size_small; lia).
  rewrite Hlen in Hcount.
  assert (Htree : exists out1 c1,
             (if d then Ok ([], 0%Z)
              else rdi_forest
                     (live_body w1 zip_path root_path ignore_set windows_style
                        (if windows_style
                         then path_string (filename root_path) +++ "/"
                         else "") total) root_path kids 0%Z)
             = Ok (out1, Z.of_nat c1)
             /\ (Z.of_nat c1 <= total - Z.of_nat (length extra_files))%Z
             /\ (total - Z.of_nat (length extra_files)
                 <= Z.of_nat (forest_count kids))%Z
             /\ ticks out1 = code_ticks total 0 c1).
  { destruct d.
    - inversion Hcount; subst. exists [], 0%nat. repeat split; simpl; lia.
    - pose proof (wf_world_coherent w1 root_path _ Hwf1 Hroot El) as Hco.
      cbn [coherent_node node_count] in *.
      pose proof (proj2 (passes_agree w1 zip_path root_path ignore_set
                           windows_style
                           (if windows_style
                            then path_string (filename root_path) +++ "/"
                            else "") total z Hz)
                        kids root_path (Z.of_nat (length extra_files)) 0%Z Hco)
        as H.
      destruct (rdi_forest (dry_body w1 root_path ignore_set) root_path kids
                           (Z.of_nat (length extra_files))) as [[o t']|];
        cbn [bind] in Hcount; [|discriminate].
      inversion Hcount; subst t'; clear Hcount.
      destruct H as [out1 [c1 [E [H1 [H2 H3]]]]]; try lia.
      rewrite E. exists out1, c1. repeat split; auto; lia. }
  destruct Htree as [out1 [c1 [E1 [A1 [B1 T1]]]]].
  rewrite E1; cbn [bind].
  destruct (extra_loop_ticks w1 zip_path total z Hz extra_files (Z.of_nat c1))
    as [out2 [c2 [E2 [A2 T2]]]]; [lia|cbn [node_count] in Hsize; lia|].
  cbn [node_count] in Hsize.
  rewrite E2; cbn [bind]. exists (out1 ++ out2 ++ [ZipClose]), (c1 + c2)%nat.
  split; [do 2 f_equal; lia|]. split; [lia|].
  split; [unfold tree_size; rewrite El; cbn [node_count]; lia|].
  rewrite !ticks_app, T1, T2, code_ticks_app. cbn [ticks].
  now rewrite app_nil_r.
Qed.

(** C8: during the write pass every archived file increments the processed
    count, and a progress notification is emitted exactly when the count is
    then a multiple of 50 or equals the total; when the total is zero no
    notification is emitted and the run completes with zero processed.
    (The numbers of files and extra files are taken to fit in an [int].) *)
Theorem notifications_follow_processed_count :
  forall w zip_path root_path ignore_set windows_style extra_files w1 total,
    wf_world w = true ->
    normal_path root_path = true ->
    zip_open w zip_path = Some w1 ->
    count_total w1 root_path ignore_set extra_files = Ok total ->
    (Z.of_nat (length extra_files + tree_size w1 root_path) <= int_max)%Z ->
    exists tr processed,
      compress w zip_path root_path ignore_set windows_style extra_files
      = Ok (w1, tr, processed)
      /\ processed = Z.of_nat (files_written tr)
      /\ ticks tr = spec_ticks total (files_written tr)
      /\ (total = 0%Z -> processed = 0%Z /\ notifications tr = []).
Proof.
  intros w zip_path root_path ignore_set windows_style extra_files w1 total
         Hwf Hroot Hopen Hcount Hsize.
  destruct (compress_ticks w zip_path root_path ignore_set windows_style
              extra_files w1 total Hwf Hroot Hopen Hcount Hsize)
    as [tr [c [E [Hc [_ Ht]]]]].
  assert (Hfw : files_written tr = c)
    by (rewrite files_written_of_ticks, Ht; apply code_ticks_written).
  subst c.
  assert (Hs : ticks tr = spec_ticks total (files_written tr)).
  { rewrite Ht at 1. unfold spec_ticks.
    apply (code_ticks_spec total (files_written tr) 0). simpl. exact Hc. }
  exists tr, (Z.of_nat (files_written tr)).
  split; [exact E|]. split; [reflexivity|]. split; [exact Hs|].
  intros H0. assert (Hz0 : files_written tr = 0%nat) by lia.
  split; [lia|].
  apply ticks_nil_notifications. rewrite Hs, Hz0. reflexivity.
Qed.

Lemma notifications_follow_processed_count_witness :
  exists tr processed,
    compress sample_world (mkPath true ["work"; "output.zip"]) proj_path
             [path_of_string "sub"] true
             [(mkPath true ["tmp"; "notes.md"], "notes.md")]
    = Ok (match zip_open sample_world (mkPath true ["work"; "output.zip"]) with
          | Some w1 => w1
          | None => sample_world
          end, tr, processed)
    /\ processed = Z.of_nat (files_written tr)
    /\ ticks tr = spec_ticks 2 (files_written tr)
    /\ (2%Z = 0%Z -> processed = 0%Z /\ notifications tr = []).
Proof.
  apply (notifications_follow_processed_count sample_world
           (mkPath true ["work"; "output.zip"]) proj_path
           [path_of_string "sub"] true
           [(mkPath true ["tmp"; "notes.md"], "notes.md")]).
  - reflexivity.
  - reflexivity.
  - reflexivity.
  - vm_compute; reflexivity.
  - vm_compute; discriminate.
Defined.

(* ===================================================================== *)
(** ** The percentage                                                     *)
(* ===================================================================== *)

Lemma flat_map_ext_seq : forall (f g : nat -> list tick) n a,
  (forall k, (a <= k < a + n)%nat -> f k = g k) ->
  flat_map f (seq a n) = flat_map g (seq a n).
Proof.
  induction n as [|n IH]; intros a H; [reflexivity|].
  cbn [seq flat_map]. rewrite (H a) by lia. f_equal.
  apply IH. intros k Hk. apply H. lia.
Qed.

Lemma percent_is_floor : forall k total : Z,
  (1 <= k <= total)%Z -> (k * 100 <= int_max)%Z ->
  int_div (int_mul k 100) total = (k * 100 / total)%Z.
Proof.
  intros k total Hk Hmax. unfold int_div, int_mul.
  assert (Hmin : (int_min <= 0)%Z) by (unfold int_min; lia).
  rewrite (wrap32_small (k * 100)) by lia.
  rewrite Z.quot_div_nonneg by lia.
  apply wrap32_small. split.
  - transitivity 0%Z; [exact Hmin|]. apply Z.div_pos; lia.
  - transitivity (k * 100)%Z; [|exact Hmax].
    apply Z.div_le_upper_bound; nia.
Qed.

Lemma percent_bounds : forall k total : Z,
  (1 <= k <= total)%Z -> (0 <= k * 100 / total <= 100)%Z.
Proof.
  intros k total Hk. split.
  - apply Z.div_pos; lia.
  - apply Z.div_le_upper_bound; lia.
Qed.

Lemma notifications_of_ticks : forall tr v,
  In v (notifications tr) <-> In (Notified v) (ticks tr).
Proof.
  induction tr as [|ev tr IH]; intros v; [reflexivity|].
  destruct ev; simpl; rewrite ?IH; try reflexivity.
  - intuition discriminate.
  - intuition congruence.
Qed.

(** C10, the claim as stated fails: in a tree of 5001 files the callback is
    first invoked after the 50th file, with 50 processed out of a total of
    5001, and the value delivered is 0, not a value between 1 and 100. *)
Lemma first_percentage_is_zero :
  match compress big_world (mkPath true ["out.zip"]) (mkPath true ["big"])
                 [] false [] with
  | Ok (w1, tr, processed) =>
      count_total w1 (mkPath true ["big"]) [] [] = Ok 5001%Z
      /\ processed = 5001%Z
      /\ firstn 51 (ticks tr) = repeat Written 50 ++ [Notified 0%Z]
  | Threw => False
  end.
Proof. vm_compute. repeat split; reflexivity. Qed.

(** C10, amended: whenever [compress] invokes the progress callback the
    total is strictly positive and, as long as [processed * 100] fits in an
    [int], the argument is the integer floor of [processed * 100 / total];
    the value delivered lies between 0 and 100. *)
Theorem percentage_is_floor_between_0_and_100 :
  forall w zip_path root_path ignore_set windows_style extra_files w1 total,
    wf_world w = true ->
    normal_path root_path = true ->
    zip_open w zip_path = Some w1 ->
    count_total w1 root_path ignore_set extra_files = Ok total ->
    (Z.of_nat (length extra_files + tree_size w1 root_path) * 100
     <= int_max)%Z ->
    exists tr processed,
      compress w zip_path root_path ignore_set windows_style extra_files
      = Ok (w1, tr, processed)
      /\ ticks tr = floor_ticks total (files_written tr)
      /\ forall v, In v (notifications tr) ->
                   (0 < total)%Z /\ (0 <= v <= 100)%Z.
Proof.
  intros w zip_path root_path ignore_set windows_style extra_files w1 total
         Hwf Hroot Hopen Hcount Hsize.
  assert (Hsize' : (Z.of_nat (length extra_files + tree_size w1 root_path)
                    <= int_max)%Z) by lia.
  destruct (compress_ticks w zip_path root_path ignore_set windows_style
              extra_files w1 total Hwf Hroot Hopen Hcount Hsize')
    as [tr [c [E [Hc [Hb Ht]]]]].
  assert (Hfw : files_written tr = c)
    by (rewrite files_written_of_ticks, Ht; apply code_ticks_written).
  subst c.
  assert (Hfloor : ticks tr = floor_ticks total (files_written tr)).
  { rewrite Ht at 1.
    transitivity (flat_map (spec_ticks_of total) (seq 1 (files_written tr))).
    { apply (code_ticks_spec total (files_written tr) 0). simpl. exact Hc. }
    unfold floor_ticks. apply flat_map_ext_seq. intros k Hk.
    unfold spec_ticks_of, floor_ticks_of.
    destruct (Z.eqb (Z.rem (Z.of_nat k) 50) 0 || Z.eqb (Z.of_nat k) total);
      [|reflexivity].
    rewrite percent_is_floor; [reflexivity|lia|lia]. }
  exists tr, (Z.of_nat (files_written tr)).
  split; [exact E|]. split; [exact Hfloor|].
  intros v Hv. apply notifications_of_ticks in Hv. rewrite Hfloor in Hv.
  unfold floor_ticks in Hv. apply in_flat_map in Hv.
  destruct Hv as [k [Hk Hin]]. apply in_seq in Hk.
  unfold floor_ticks_of in Hin. destruct Hin as [Hin|Hin]; [discriminate|].
  destruct (Z.eqb (Z.rem (Z.of_nat k) 50) 0 || Z.eqb (Z.of_nat k) total);
    [|destruct Hin].
  destruct Hin as [Hin|[]]. inversion Hin; subst v.
  split; [lia|]. apply percent_bounds. lia.
Qed.

Lemma percentage_is_floor_between_0_and_100_witness :
  exists tr processed,
    compress sample_world (mkPath true ["work"; "output.zip"]) proj_path
             [path_of_string "sub"] true
             [(mkPath true ["tmp"; "notes.md"], "notes.md")]
    = Ok (match zip_open sample_world (mkPath true ["work"; "output.zip"]) with
          | Some w1 => w1
          | None => sample_world
          end, tr, processed)
    /\ ticks tr = floor_ticks 2 (files_written tr)
    /\ forall v, In v (notifications tr) -> (0 < 2)%Z /\ (0 <= v <= 100)%Z.
Proof.
  apply (percentage_is_floor_between_0_and_100 sample_world
           (mkPath true ["work"; "output.zip"]) proj_path
           [path_of_string "sub"] true
           [(mkPath true ["tmp"; "notes.md"], "notes.md")]).
  - reflexivity.
  - reflexivity.
  - reflexivity.
  - vm_compute; reflexivity.
  - vm_compute; discriminate.
Defined.

(* ===================================================================== *)
(** ** Archiving a whole tree                                             *)
(* ===================================================================== *)

Lemma append_empty_r : forall s : string, s +++ "" = s.
Proof. induction s as [|c s IH]; simpl; [reflexivity|now rewrite IH]. Qed.

Lemma mismatch_prefix : forall r l, mismatch (r ++ l) r = (l, []).
Proof.
  induction r as [|x r IH]; intros l; simpl.
  - destruct l; reflexivity.
  - now rewrite String.eqb_refl.
Qed.

(** The path of a candidate relative to the root it was found under. *)
Lemma lexically_relative_below : forall root_path rel name,
  lexically_relative
    (child_path (mkPath (absolute root_path) (elems root_path ++ rel)) name)
    root_path
  = mkPath false (rel ++ [name]).
Proof.
  intros root_path rel name. unfold lexically_relative, child_path.
  cbn [absolute elems]. rewrite Bool.eqb_reflx. cbn [negb].
  rewrite <- app_assoc, mismatch_prefix.
  destruct (rel ++ [name]) as [|x l] eqn:E.
  - symmetry in E. now apply app_cons_not_nil in E.
  - reflexivity.
Qed.

Lemma dry_loop_without_ignores : forall w root_path,
  (forall n dir name t,
      exists t', rdi_node (dry_body w root_path []) dir name n t = Ok ([], t'))
  /\ (forall f dir t,
      exists t', rdi_forest (dry_body w root_path []) dir f t = Ok ([], t')).
Proof.
  intros w root_path. apply node_forest_mutind.
  - intros; simpl; eauto.
  - intros i d kids IH dir name t. rewrite rdi_node_eq, dry_body_cases.
    cbn [should_ignore bind orb]. unfold entry_is_regular_file.
    cbn [entry_node node_is_regular_file].
    destruct d; [eauto|].
    destruct (IH (child_path dir name) t) as [t' E]. rewrite E. cbn; eauto.
  - intros; simpl; eauto.
  - intros; simpl; eauto.
  - intros; simpl; eauto.
  - intros name n IHn rest IHr dir t. rewrite rdi_forest_cons.
    destruct (IHn dir name t) as [t1 E1]. rewrite E1. cbn [bind].
    destruct (IHr dir t1) as [t2 E2]. rewrite E2. cbn; eauto.
Qed.

Section WholeTree.
Variable w : world.
Variables zip_path root_path : path.
Variable wrapper_folder : string.
Variable total : Z.
Variable z : nat.
Hypothesis zip_exists : file_id w zip_path = Some z.

Local Abbreviation live0 :=
  (live_body w zip_path root_path [] false wrapper_folder total).
Local Abbreviation below rel :=
  (mkPath (absolute root_path) (elems root_path ++ rel)).

(** Without ignore paths the writing loop opens one entry for every
    directory and every regular file other than the archive that the walk
    reaches, under its relative path, and counts the files. *)
Lemma live_loop_without_ignores :
  (forall n rel name p,
      file_id w (child_path (below rel) name) = node_id n ->
      coherent_node w (child_path (below rel) name) n ->
      (0 <= p)%Z -> (p + Z.of_nat (node_count n) <= int_max)%Z ->
      exists out,
        rdi_node live0 (below rel) name n p
        = Ok (out,
              (p + Z.of_nat (length (filter (archived_file (Some z))
                                            (walk_node rel name n))))%Z)
        /\ entry_names out
           = map tree_entry_name
                 (filter (archived (Some z)) (walk_node rel name n))
        /\ (length (filter (archived_file (Some z)) (walk_node rel name n))
            <= node_count n)%nat)
  /\ (forall f rel p,
      coherent_forest w (below rel) f ->
      (0 <= p)%Z -> (p + Z.of_nat (forest_count f) <= int_max)%Z ->
      exists out,
        rdi_forest live0 (below rel) f p
        = Ok (out,
              (p + Z.of_nat (length (filter (archived_file (Some z))
                                            (walk_forest rel f))))%Z)
        /\ entry_names out
           = map tree_entry_name
                 (filter (archived (Some z)) (walk_forest rel f))
        /\ (length (filter (archived_file (Some z)) (walk_forest rel f))
            <= forest_count f)%nat).
Proof.
  apply node_forest_mutind.
  - (* regular file *)
    intros i rel name p Hid _ Hp0 Hp.
    rewrite rdi_node_eq, live_body_cases.
    unfold entry_is_directory, entry_is_regular_file.
    cbn [entry_path entry_node node_is_directory node_is_regular_file
         node_count should_ignore walk_node filter archived archived_file
         snd andb] in *.
    unfold equivalent. rewrite Hid, zip_exists. cbn [node_id bind].
    destruct (Nat.eqb i z); cbn [bind negb filter length map].
    + eexists. split; [rewrite Z.add_0_r; reflexivity|]. split; [reflexivity|lia].
    + rewrite (int_incr_small p) by lia. eexists.
      split; [reflexivity|]. split; [|lia].
      cbn [app entry_names]. rewrite entry_names_notify.
      rewrite lexically_relative_below. unfold tree_entry_name.
      cbn [fst snd node_is_directory generic_string absolute elems].
      now rewrite append_empty_r.
  - (* directory *)
    intros i d kids IH rel name p Hid Hco Hp0 Hp.
    rewrite rdi_node_eq, live_body_cases.
    unfold entry_is_directory, entry_is_regular_file.
    cbn [entry_path entry_node node_is_directory node_is_regular_file
         node_count should_ignore walk_node filter archived archived_file
         snd andb bind orb coherent_node] in *.
    rewrite lexically_relative_below.
    destruct d; cbn [bind filter length map].
    + eexists. split; [rewrite Z.add_0_r; reflexivity|].
      split; [reflexivity|lia].
    + replace (child_path (below rel) name) with (below (rel ++ [name])) in *
        by (unfold child_path; cbn [absolute elems];
            now rewrite app_assoc).
      destruct (IH (rel ++ [name]) p Hco Hp0) as [out [E [Hn Hc]]]; [lia|].
      rewrite E. cbn [bind]. eexists. split; [reflexivity|].
      split; [|lia]. cbn [app entry_names]. now rewrite Hn.
  - (* other file *)
    intros i rel name p Hid _ Hp0 Hp.
    rewrite rdi_node_eq, live_body_cases. cbn.
    eexists. split; [rewrite Z.add_0_r; reflexivity|].
    split; [reflexivity|lia].
  - (* dangling link *)
    intros rel name p Hid _ Hp0 Hp.
    rewrite rdi_node_eq, live_body_cases. cbn.
    eexists. split; [rewrite Z.add_0_r; reflexivity|].
    split; [reflexivity|lia].
  - intros rel p _ Hp0 Hp. cbn.
    eexists. split; [rewrite Z.add_0_r; reflexivity|].
    split; [reflexivity|lia].
  - intros name n IHn rest IHr rel p Hco Hp0 Hp.
    rewrite rdi_forest_cons.
    cbn [coherent_forest forest_count walk_forest] in *.
    destruct Hco as [Hid [Hn Hr]].
    destruct (IHn rel name p Hid Hn Hp0) as [out1 [E1 [N1 C1]]]; [lia|].
    rewrite E1. cbn [bind].
    match type of E1 with
    | _ = Ok (_, ?q) =>
        destruct (IHr rel q Hr) as [out2 [E2 [N2 C2]]]; [lia|lia|]
    end.
    rewrite E2. cbn [bind]. eexists.
    split; [|split].
    + rewrite filter_app, length_app. do 2 f_equal. lia.
    + now rewrite entry_names_app, filter_app, map_app, N1, N2.
    + rewrite filter_app, length_app. lia.
Qed.
End WholeTree.

(** C2, the claim as stated fails: [/work/proj] holds a regular file, a
    FIFO, the archive of an earlier run and a directory that cannot be
    listed with a file in it.  The archive gets two entries where the tree
    has five nodes, and one file is processed where the tree has three
    regular files. *)
Lemma archive_misses_some_nodes :
  match compress mixed_world (mkPath true ["work"; "proj"; "output.zip"])
                 proj_path [] false [] with
  | Ok (w1, tr, processed) =>
      entry_names tr = ["a.txt"; "locked/"]
      /\ spec_entry_names w1 proj_path
         = ["a.txt"; "pipe"; "output.zip"; "locked/"; "locked/secret.txt"]
      /\ processed = 1%Z
      /\ spec_regular_files w1 proj_path = 3
  | Threw => False
  end.
Proof. vm_compute. repeat split; reflexivity. Qed.

(** C2, amended: for every directory tree archived with empty ignore and
    extra lists, the archive contains exactly one entry for every directory
    and for every regular file other than the destination archive that the
    traversal reaches (it does not enter a directory that cannot be listed;
    FIFOs, sockets, devices and dangling links get no entry), in traversal
    order, each named by the node's path relative to the root with forward
    slashes and a trailing slash for a directory; the returned count is the
    number of those regular files.  (The number of nodes is taken to fit in
    an [int].) *)
Theorem archive_has_one_entry_per_archived_node :
  forall w zip_path root_path w1,
    wf_world w = true ->
    normal_path root_path = true ->
    zip_open w zip_path = Some w1 ->
    is_directory w1 root_path = true ->
    (Z.of_nat (tree_size w1 root_path) <= int_max)%Z ->
    exists tr,
      compress w zip_path root_path [] false []
      = Ok (w1, tr,
            Z.of_nat (length (filter (archived_file (file_id w1 zip_path))
                                     (walk w1 root_path))))
      /\ entry_names tr
         = map tree_entry_name
               (filter (archived (file_id w1 zip_path)) (walk w1 root_path)).
Proof.
  intros w zip_path root_path w1 Hwf Hroot Hopen Hdir Hsize.
  destruct (zip_open_exists w zip_path w1 Hopen) as [z Hz].
  pose proof (zip_open_wf w zip_path w1 Hwf Hopen) as Hwf1.
  unfold compress. rewrite Hopen, Hz.
  unfold count_total, rdi_loop, walk. unfold is_directory in Hdir.
  unfold tree_size in Hsize.
  destruct (lookup w1 root_path) as [[i|i d kids|i|]|] eqn:El;
    try discriminate.
  destruct d.
  - cbn. eexists; split; reflexivity.
  - destruct (proj2 (dry_loop_without_ignores w1 root_path) kids root_path
                    (int_of_size (length (@nil (path * string)))))
      as [total Ed].
    rewrite Ed. cbn [bind].
    pose proof (wf_world_coherent w1 root_path _ Hwf1 Hroot El) as Hco.
    cbn [coherent_node node_count] in *.
    pose proof (proj2 (live_loop_without_ignores w1 zip_path root_path ""
                         total z Hz) kids [] 0%Z) as H.
    rewrite app_nil_r in H.
    replace (mkPath (absolute root_path) (elems root_path)) with root_path in H
      by (destruct root_path; reflexivity).
    destruct (H Hco) as [out [E [Hn Hc]]]; [lia|lia|].
    rewrite E. cbn [bind extra_loop app]. eexists. split; [reflexivity|].
    rewrite entry_names_app. cbn [entry_names]. now rewrite app_nil_r.
Qed.

Lemma archive_has_one_entry_per_archived_node_witness :
  exists tr,
    compress mixed_world (mkPath true ["work"; "proj"; "output.zip"])
             proj_path [] false []
    = Ok (mixed_world, tr,
          Z.of_nat
            (length
               (filter (archived_file
                          (file_id mixed_world
                             (mkPath true ["work"; "proj"; "output.zip"])))
                       (walk mixed_world proj_path))))
    /\ entry_names tr
       = map tree_entry_name
           (filter (archived
                      (file_id mixed_world
                         (mkPath true ["work"; "proj"; "output.zip"])))
                   (walk mixed_world proj_path)).
Proof.
  apply (archive_has_one_entry_per_archived_node mixed_world
           (mkPath true ["work"; "proj"; "output.zip"]) proj_path mixed_world).
  - reflexivity.
  - reflexivity.
  - reflexivity.
  - reflexivity.
  - vm_compute; discriminate.
Defined.

(* ===================================================================== *)
(** ** Renaming a directory                                               *)
(* ===================================================================== *)

Lemma find_child_remove_other : forall f x y,
  String.eqb x y = false -> find_child (remove_child x f) y = find_child f y.
Proof.
  induction f as [|a m rest IH]; intros x y H; simpl; [reflexivity|].
  destruct (String.eqb a x) eqn:E.
  - apply String.eqb_eq in E; subst a. now rewrite H.
  - simpl. destruct (String.eqb a y); [reflexivity|now apply IH].
Qed.

Lemma find_child_remove_same : forall f x,
  wf_forest f = true -> find_child (remove_child x f) x = None.
Proof.
  induction f as [|a m rest IH]; intros x Hwf; simpl; [reflexivity|].
  simpl in Hwf.
  apply andb_true_iff in Hwf. destruct Hwf as [Hwf Hrest].
  apply andb_true_iff in Hwf. destruct Hwf as [Hwf Hm].
  apply andb_true_iff in Hwf. destruct Hwf as [Ha Habs].
  destruct (String.eqb a x) eqn:E.
  - apply String.eqb_eq in E; subst a. unfold absent in Habs.
    destruct (find_child rest x); [discriminate|reflexivity].
  - simpl. rewrite E. now apply IH.
Qed.

(** Taking an entry away creates no path. *)
Lemma update_dir_remove_none : forall l x r r1,
  wf_node r = true -> update_dir l (remove_child x) r = Some r1 ->
  forall q, descend r q = None -> descend r1 q = None.
Proof.
  induction l as [|a l IH]; intros x r r1 Hwf H q Hq;
    destruct r as [i|i d kids|i|]; simpl in H; try discriminate.
  - inversion H; subst; clear H. destruct q as [|y q]; [discriminate|].
    simpl in *. destruct (String.eqb x y) eqn:E.
    + apply String.eqb_eq in E; subst y.
      now rewrite find_child_remove_same.
    + now rewrite find_child_remove_other.
  - destruct (map_child a (update_dir l (remove_child x)) kids) as [kids'|]
      eqn:Em; [|discriminate].
    inversion H; subst; clear H. destruct q as [|y q]; [discriminate|].
    destruct (map_child_find kids a _ kids' Em) as [m [m' [H1 [H2 [H3 H4]]]]].
    simpl in *. destruct (String.eqb a y) eqn:E.
    + apply String.eqb_eq in E; subst y. rewrite H1 in Hq. rewrite H3.
      apply (IH x m m'); auto. now apply (find_child_wf kids a).
    + rewrite H4 by exact E. exact Hq.
Qed.

(** A new entry at the end of a directory leaves the directories there
    were where they were. *)
Lemma update_dir_add_keeps_directories : forall l name n0 r r',
  update_dir l (add_child name n0) r = Some r' ->
  forall q i d k, descend r q = Some (Directory i d k) ->
                  exists k', descend r' q = Some (Directory i d k').
Proof.
  induction l as [|a l IH]; intros name n0 r r' H q i d k Hq;
    destruct r as [j|j e kids|j|]; simpl in H; try discriminate.
  - inversion H; subst; clear H. destruct q as [|y q].
    + simpl in *. inversion Hq; subst. eauto.
    + simpl in *. rewrite find_child_add_child.
      destruct (find_child kids y); [eauto|discriminate].
  - destruct (map_child a (update_dir l (add_child name n0)) kids)
      as [kids'|] eqn:Em; [|discriminate].
    inversion H; subst; clear H. destruct q as [|y q].
    + simpl in *. inversion Hq; subst. eauto.
    + destruct (map_child_find kids a _ kids' Em) as [m [m' [H1 [H2 [H3 H4]]]]].
      simpl in *. destruct (String.eqb a y) eqn:E.
      * apply String.eqb_eq in E; subst y. rewrite H1 in Hq. rewrite H3.
        now apply (IH name n0 m m' H2 q i d k).
      * rewrite H4 by exact E. eauto.
Qed.

Lemma move_node_moves : forall r src dst r2,
  wf_node r = true -> forallb plain dst = true ->
  move_node r src dst = Some r2 ->
  wf_node r2 = true /\ node_is_directory r2 = true
  /\ exists n, descend r src = Some n /\ descend r2 dst = Some n.
Proof.
  intros r src dst r2 Hwf Hplain H. unfold move_node in H.
  destruct (descend r src) as [n|] eqn:Es; [|discriminate].
  destruct (descend r dst) eqn:Ed; [discriminate|].
  destruct (rev src) as [|sname ts] eqn:Ers; [discriminate|].
  destruct (rev dst) as [|dname td] eqn:Erd; [discriminate|].
  destruct (update_dir (removelast src) (remove_child sname) r) as [r1|]
    eqn:E1; [|discriminate].
  assert (Hwf1 : wf_node r1 = true).
  { apply (update_dir_wf _ _ _ _ Hwf E1). intros i d kids _ Hk.
    now apply wf_remove_child. }
  pose proof (update_dir_remove_none _ _ _ _ Hwf E1 dst Ed) as Hn.
  destruct (update_dir_descend _ _ _ _ H) as [i [d [kids [H1 H2]]]].
  pose proof (rev_cons_split dst dname td Erd) as Hsplit.
  assert (Habs : absent kids dname = true).
  { apply (descend_parent_absent r1 (removelast dst) dname i d); auto.
    now rewrite <- Hsplit. }
  split; [|split].
  - apply (update_dir_wf _ _ _ _ Hwf1 H). intros j e ks Hd Hk.
    rewrite H1 in Hd. inversion Hd; subst. apply wf_add_child; auto.
    + apply (proj1 (forallb_forall plain dst) Hplain).
      now apply (In_last_of_rev dst dname td).
    + now apply (descend_wf src r).
  - now apply (update_dir_is_directory _ _ _ _ H).
  - exists n. split; [reflexivity|].
    rewrite Hsplit, descend_app, H2. simpl. rewrite find_child_add_child.
    unfold absent in Habs. destruct (find_child kids dname); [discriminate|].
    now rewrite String.eqb_refl.
Qed.

Lemma lookup_ext : forall w w' p,
  fsroot w' = fsroot w -> cwd w' = cwd w -> lookup w' p = lookup w p.
Proof.
  intros w w' p Hr Hc. unfold lookup, weakly_canonical, absolute_of.
  now rewrite Hr, Hc.
Qed.

Lemma fs_rename_cwd : forall w src dst w1 ok,
  fs_rename w src dst = (w1, ok) -> cwd w1 = cwd w.
Proof.
  intros w src dst w1 ok H. unfold fs_rename in H.
  destruct (match rename_denied w with d :: _ => d | [] => false end).
  - inversion H; reflexivity.
  - destruct (move_node _ _ _); inversion H; reflexivity.
Qed.

(** A successful rename keeps the world well-formed and puts the node
    under its new name. *)
Lemma fs_rename_succeeded : forall w src dst w1,
  wf_world w = true -> fs_rename w src dst = (w1, true) ->
  wf_world w1 = true
  /\ exists n, lookup w src = Some n /\ lookup w1 dst = Some n.
Proof.
  intros w src dst w1 Hw H. pose proof (fs_rename_cwd _ _ _ _ _ H) as Hc.
  unfold lookup.
  replace (weakly_canonical w1 dst) with (weakly_canonical w dst)
    by (unfold weakly_canonical, absolute_of; now rewrite Hc).
  unfold fs_rename in H.
  destruct (match rename_denied w with d :: _ => d | [] => false end);
    [discriminate|].
  destruct (move_node (fsroot w) (elems (weakly_canonical w src))
                      (elems (weakly_canonical w dst))) as [r2|] eqn:Em;
    [|discriminate].
  inversion H; subst; clear H. simpl in *.
  unfold wf_world in Hw.
  apply andb_true_iff in Hw. destruct Hw as [Hw Hcwd].
  apply andb_true_iff in Hw. destruct Hw as [Hdir Hwf].
  assert (Hplain : forallb plain (elems (weakly_canonical w dst)) = true).
  { pose proof (weakly_canonical_normal w dst Hcwd) as Hn.
    unfold normal_path in Hn. now apply andb_true_iff in Hn. }
  destruct (move_node_moves _ _ _ _ Hwf Hplain Em) as [H1 [H2 H3]].
  split; [|exact H3].
  unfold wf_world. simpl. now rewrite H1, H2, Hcwd.
Qed.

(** A failed rename changes nothing in the tree. *)
Lemma fs_rename_failed : forall w src dst w1,
  fs_rename w src dst = (w1, false) ->
  fsroot w1 = fsroot w /\ cwd w1 = cwd w.
Proof.
  intros w src dst w1 H. unfold fs_rename in H.
  destruct (match rename_denied w with d :: _ => d | [] => false end).
  - inversion H; auto.
  - destruct (move_node _ _ _); inversion H; auto.
Qed.

Lemma create_file_keeps_directory : forall w p w1 q,
  create_file w p = Some w1 ->
  is_directory w q = true -> is_directory w1 q = true.
Proof.
  intros w p w1 q H Hq. pose proof (create_file_cwd w p w1 H) as Hc.
  unfold is_directory, lookup in *.
  replace (weakly_canonical w1 q) with (weakly_canonical w q)
    by (unfold weakly_canonical, absolute_of; now rewrite Hc).
  unfold create_file in H.
  destruct (descend (fsroot w) (elems (weakly_canonical w p)))
    as [[i|i d kids|i|]|]; try discriminate;
    try (inversion H; subst; exact Hq).
  destruct (rev (elems (weakly_canonical w p))) as [|name t];
    [discriminate|].
  destruct (update_dir _ _ (fsroot w)) as [r|] eqn:Eu; [|discriminate].
  inversion H; subst; clear H. simpl.
  destruct (descend (fsroot w) (elems (weakly_canonical w q)))
    as [[i|i d kids|i|]|] eqn:Ed; try discriminate.
  destruct (update_dir_add_keeps_directories _ _ _ _ _ Eu _ _ _ _ Ed)
    as [k' Hk]. now rewrite Hk.
Qed.

(* ===================================================================== *)
(** ** The new name of the directory                                      *)
(* ===================================================================== *)

Lemma append_char_assoc : forall cur c r,
  (cur +++ String c "") +++ r = cur +++ String c r.
Proof.
  induction cur as [|a cur IH]; intros c r; simpl; [reflexivity|].
  now rewrite IH.
Qed.

Lemma split_slash_name : forall s cur,
  find_first_of s "\/:" = false -> split_slash s cur = [cur +++ s].
Proof.
  induction s as [|c s IH]; intros cur H; simpl.
  - now rewrite append_empty_r.
  - simpl in H. apply orb_false_iff in H. destruct H as [Hc Hs].
    apply orb_false_iff in Hc. destruct Hc as [_ Hc].
    apply orb_false_iff in Hc. destruct Hc as [Hc _].
    rewrite Hc, IH by exact Hs. now rewrite append_char_assoc.
Qed.

(** A legal new name is a path of one element. *)
Lemma path_of_string_name : forall s,
  String.eqb s "" = false -> find_first_of s "\/:" = false ->
  path_of_string s = mkPath false [s].
Proof.
  intros s Hne Hs. unfold path_of_string.
  rewrite split_slash_name by exact Hs.
  cbn [String.append filter]. unfold nonempty. rewrite Hne. cbn [negb].
  f_equal. destruct s as [|c s]; [discriminate|].
  simpl in Hs. apply orb_false_iff in Hs. destruct Hs as [Hc _].
  apply orb_false_iff in Hc. destruct Hc as [_ Hc].
  apply orb_false_iff in Hc. destruct Hc as [Hc _].
  cbn [String.prefix]. destruct (ascii_dec "/" c) as [e|e]; [|reflexivity].
  subst c. discriminate.
Qed.

Lemma normal_elems_app_plain : forall abs l l' acc,
  forallb plain l = true ->
  normal_elems abs acc (l ++ l') = normal_elems abs (rev l ++ acc) l'.
Proof.
  induction l as [|x l IH]; intros l' acc H; [reflexivity|].
  simpl in H. apply andb_true_iff in H. destruct H as [Hx Hl].
  destruct (plain_inv x Hx) as [E1 E2]. simpl. rewrite E1, E2.
  rewrite IH by exact Hl. now rewrite <- app_assoc.
Qed.

(** With [.] or [..] as last element a path in normal form resolves to
    one of its own prefixes. *)
Lemma dot_name_resolves_to_prefix : forall l new,
  forallb plain l = true -> new = "." \/ new = ".." ->
  exists s, l = normal_elems true [] (removelast l ++ [new]) ++ s.
Proof.
  intros l new Hl Hnew. destruct (rev l) as [|x t] eqn:Er.
  - assert (l = []) by (rewrite <- (rev_involutive l), Er; reflexivity).
    subst l. exists []. destruct Hnew; subst new; reflexivity.
  - assert (E : l = rev t ++ [x])
      by (rewrite <- (rev_involutive l), Er; reflexivity).
    assert (Hrl : removelast l = rev t)
      by (rewrite E; apply removelast_last).
    rewrite Hrl.
    assert (Ht : forallb plain (rev t) = true).
    { rewrite E, forallb_app in Hl. now apply andb_true_iff in Hl. }
    rewrite normal_elems_app_plain by exact Ht.
    rewrite rev_involutive, app_nil_r.
    destruct Hnew; subst new; simpl.
    + exists [x]. exact E.
    + destruct t as [|y t'].
      * exists l. reflexivity.
      * assert (Hy : plain y = true).
        { apply (proj1 (forallb_forall plain (rev (y :: t'))) Ht).
          apply in_rev. rewrite rev_involutive. now left. }
        destruct (plain_inv y Hy) as [_ E2]. rewrite E2.
        exists [y; x]. rewrite E. simpl. now rewrite <- app_assoc.
Qed.

Lemma descend_prefix_exists : forall r l s n,
  descend r (l ++ s) = Some n -> node_id n <> None ->
  exists m, descend r l = Some m /\ node_id m <> None.
Proof.
  intros r l s n H Hn. rewrite descend_app in H.
  destruct (descend r l) as [m|]; [|discriminate].
  exists m. split; [reflexivity|].
  destruct s as [|x s]; simpl in H.
  - congruence.
  - destruct m; discriminate.
Qed.

(** In the directory of an existing path the names [.] and [..] exist. *)
Lemma dot_name_exists : forall w original new,
  normal_path original = true -> fs_exists w original = true ->
  new = "." \/ new = ".." ->
  fs_exists w (mkPath (absolute original)
                      (removelast (elems original) ++ [new])) = true.
Proof.
  intros w [a l] new Hn He Hnew.
  unfold fs_exists, file_id in He. rewrite lookup_normal in He by exact Hn.
  unfold normal_path in Hn; simpl in Hn.
  apply andb_true_iff in Hn. destruct Hn as [Ha Hl]. subst a. simpl in *.
  destruct (dot_name_resolves_to_prefix l new Hl Hnew) as [s Hs].
  unfold fs_exists, file_id, lookup, weakly_canonical.
  rewrite absolute_of_absolute by reflexivity.
  unfold lexically_normal. cbn [elems absolute].
  destruct (removelast l ++ [new]) as [|x r] eqn:E.
  { symmetry in E. now apply app_cons_not_nil in E. }
  set (res := normal_elems true [] (x :: r)) in *.
  assert (Hel : forall L : list string,
             elems (match L with
                    | [] => mkPath true []
                    | s0 :: l0 => mkPath true (s0 :: l0)
                    end) = L) by (intros L; destruct L; reflexivity).
  rewrite Hel.
  destruct (descend (fsroot w) l) as [n|] eqn:Ed; [|discriminate].
  rewrite Hs in Ed.
  destruct (descend_prefix_exists (fsroot w) res s n Ed) as [m [Hm Hid]].
  { destruct (node_id n); [discriminate|discriminate]. }
  rewrite Hm. destruct (node_id m); [reflexivity|congruence].
Qed.

(** A new name that passed the checks of [main] is a plain file name. *)
Lemma legal_new_name_is_plain : forall w original new,
  normal_path original = true -> fs_exists w original = true ->
  fs_exists w (mkPath (absolute original)
                      (removelast (elems original) ++ [new])) = false ->
  plain new = true.
Proof.
  intros w original new Hn He Hr. unfold plain.
  destruct (String.eqb new ".") eqn:E1.
  - apply String.eqb_eq in E1.
    rewrite (dot_name_exists w original new Hn He) in Hr by auto.
    discriminate.
  - destruct (String.eqb new "..") eqn:E2; [|reflexivity].
    apply String.eqb_eq in E2.
    rewrite (dot_name_exists w original new Hn He) in Hr by auto.
    discriminate.
Qed.

Lemma forallb_removelast : forall l,
  forallb plain l = true -> forallb plain (removelast l) = true.
Proof.
  induction l as [|x l IH]; intros H; [reflexivity|].
  simpl in H. apply andb_true_iff in H. destruct H as [Hx Hl].
  destruct l as [|y l]; [reflexivity|].
  cbn [removelast forallb]. rewrite Hx. now apply IH.
Qed.

(* ===================================================================== *)
(** ** The rename transaction                                             *)
(* ===================================================================== *)

Section LiveReturns.
Variable w : world.
Variables zip_path root_path : path.
Variable windows_style : bool.
Variable wrapper_folder : string.
Variable total : Z.
Variable z : nat.
Hypothesis zip_exists : file_id w zip_path = Some z.

Local Abbreviation live1 :=
  (live_body w zip_path root_path [] windows_style wrapper_folder total).

(** Without ignore paths the writing loop returns. *)
Lemma live_loop_returns :
  (forall n dir name p,
      file_id w (child_path dir name) = node_id n ->
      coherent_node w (child_path dir name) n ->
      exists out p', rdi_node live1 dir name n p = Ok (out, p'))
  /\ (forall f dir p,
      coherent_forest w dir f ->
      exists out p', rdi_forest live1 dir f p = Ok (out, p')).
Proof.
  apply node_forest_mutind.
  - intros i dir name p Hid _. rewrite rdi_node_eq, live_body_cases.
    unfold entry_is_directory, entry_is_regular_file.
    cbn [entry_path entry_node node_is_directory node_is_regular_file
         should_ignore].
    unfold equivalent. rewrite Hid, zip_exists. cbn [node_id bind].
    destruct (Nat.eqb i z); cbn [bind]; eauto.
  - intros i d kids IH dir name p Hid Hco. rewrite rdi_node_eq, live_body_cases.
    unfold entry_is_directory, entry_is_regular_file.
    cbn [entry_path entry_node node_is_directory node_is_regular_file
         should_ignore bind orb coherent_node] in *.
    destruct d; [eauto|].
    destruct (IH (child_path dir name) p Hco) as [out [p' E]].
    rewrite E. cbn [bind]. eauto.
  - intros i dir name p _ _. rewrite rdi_node_eq, live_body_cases. cbn. eauto.
  - intros dir name p _ _. rewrite rdi_node_eq, live_body_cases. cbn. eauto.
  - intros dir p _. cbn. eauto.
  - intros name n IHn rest IHr dir p Hco. rewrite rdi_forest_cons.
    cbn [coherent_forest] in Hco. destruct Hco as [Hid [Hn Hr]].
    destruct (IHn dir name p Hid Hn) as [out1 [p1 E1]]. rewrite E1.
    cbn [bind].
    destruct (IHr dir p1 Hr) as [out2 [p2 E2]]. rewrite E2. cbn [bind]. eauto.
Qed.
End LiveReturns.

(** With no ignore paths and no extra files [compress] returns for every
    directory of a well-formed world, and the directory is still there. *)
Lemma compress_returns_on_directory :
  forall w zip_path root_path windows_style,
    wf_world w = true -> normal_path root_path = true ->
    is_directory w root_path = true ->
    exists w2 tr processed,
      compress w zip_path root_path [] windows_style [] = Ok (w2, tr, processed)
      /\ wf_world w2 = true /\ cwd w2 = cwd w
      /\ is_directory w2 root_path = true.
Proof.
  intros w zip_path root_path windows_style Hwf Hroot Hdir.
  unfold compress. destruct (zip_open w zip_path) as [w1|] eqn:Hopen.
  2:{ exists w. eauto 10. }
  destruct (zip_open_exists w zip_path w1 Hopen) as [z Hz].
  pose proof (zip_open_wf w zip_path w1 Hwf Hopen) as Hwf1.
  assert (Hc : cwd w1 = cwd w).
  { unfold zip_open in Hopen. destruct (zip_open_ok w); [|discriminate].
    now apply (create_file_cwd w zip_path). }
  assert (Hdir1 : is_directory w1 root_path = true).
  { unfold zip_open in Hopen. destruct (zip_open_ok w); [|discriminate].
    now apply (create_file_keeps_directory w zip_path). }
  exists w1. unfold count_total, rdi_loop.
  pose proof Hdir1 as Hd. unfold is_directory in Hd.
  destruct (lookup w1 root_path) as [[i|i d kids|i|]|] eqn:El;
    try discriminate.
  destruct d.
  - cbn. eauto 10.
  - destruct (proj2 (dry_loop_without_ignores w1 root_path) kids root_path
                    (int_of_size (length (@nil (path * string)))))
      as [total Ed].
    rewrite Ed. cbn [bind].
    pose proof (wf_world_coherent w1 root_path _ Hwf1 Hroot El) as Hco.
    cbn [coherent_node] in Hco.
    destruct (proj2 (live_loop_returns w1 zip_path root_path windows_style
                       (if windows_style
                        then path_string (filename root_path) +++ "/"
                        else "") total z Hz) kids root_path 0%Z Hco)
      as [out [p' E]].
    rewrite E. cbn [bind extra_loop]. eauto 10.
Qed.

(** C1: in the rename-zip mode the run never throws in a well-formed
    world, and once the source directory has been renamed the archive
    builder is run and, whatever it reported, a rename back to the original
    name is attempted right after it; the run then reports completion and
    exits with status 0.  If that rename fails the directory is still under
    the new name and a warning naming both paths is printed before the
    completion line. *)
Theorem rename_zip_attempts_restore_after_archiving :
  forall w rz_dir_arg rz_new_name rz_windows_style,
    wf_world w = true ->
    exists w3 tr code,
      main w (CmdRenameZip rz_dir_arg rz_new_name rz_windows_style)
      = Ok (w3, tr, code)
      /\ forall original renamed rest,
           tr = FsRename original renamed true :: rest ->
           exists w2 out processed restored,
             compress (fst (fs_rename w original renamed))
                      (cwd w // path_of_string (rz_new_name +++ ".zip"))
                      renamed [] rz_windows_style []
             = Ok (w2, out, processed)
             /\ fs_rename w2 renamed original = (w3, restored)
             /\ rest
                = out
                  ++ [BarMarkAsCompleted;
                      FsRename renamed original restored]
                  ++ (if restored then []
                      else [Cerr (WarnRestoreFailed (path_string renamed)
                                                    (path_string original))])
                  ++ [Cout (MsgCompleted processed
                              (path_string
                                 (cwd w
                                  // path_of_string (rz_new_name +++ ".zip"))))]
             /\ code = 0%Z
             /\ is_directory w3 (if restored then original else renamed)
                = true.
Proof.
  intros w dir new ws Hwf.
  assert (Hcwd : normal_path (cwd w) = true).
  { unfold wf_world in Hwf. now apply andb_true_iff in Hwf. }
  unfold main, main_rename_zip.
  set (original := weakly_canonical w (cwd w // path_of_string dir)).
  assert (Hno : normal_path original = true)
    by (apply weakly_canonical_normal; exact Hcwd).
  cbv zeta.
  destruct (fs_exists w original) eqn:Ee; cbn [negb].
  2:{ do 3 eexists. split; [reflexivity|]. intros o r rest H. discriminate. }
  destruct (is_directory w original) eqn:Ed; cbn [negb].
  2:{ do 3 eexists. split; [reflexivity|]. intros o r rest H. discriminate. }
  destruct (String.eqb new "" || find_first_of new "\/:") eqn:En.
  { do 3 eexists. split; [reflexivity|]. intros o r rest H. discriminate. }
  apply orb_false_iff in En. destruct En as [Hne Hff].
  rewrite (path_of_string_name new Hne Hff).
  set (renamed := parent_path original // mkPath false [new]).
  assert (Hren : renamed = mkPath (absolute original)
                                  (removelast (elems original) ++ [new]))
    by reflexivity.
  destruct (fs_exists w renamed) eqn:Er.
  { do 3 eexists. split; [reflexivity|]. intros o r rest H. discriminate. }
  assert (Hplain : plain new = true).
  { apply (legal_new_name_is_plain w original new Hno Ee).
    now rewrite <- Hren. }
  assert (Hnr : normal_path renamed = true).
  { unfold normal_path in *. apply andb_true_iff in Hno.
    destruct Hno as [Ha Hl]. rewrite Hren. cbn [absolute elems].
    rewrite Ha, forallb_app, forallb_removelast by exact Hl.
    simpl. now rewrite Hplain. }
  destruct (fs_rename w original renamed) as [w1 ok] eqn:Ern.
  destruct ok; cbn [negb].
  2:{ do 3 eexists. split; [reflexivity|]. intros o r rest H.
      inversion H. }
  destruct (fs_rename_succeeded w original renamed w1 Hwf Ern)
    as [Hwf1 [n [Hn1 Hn2]]].
  pose proof (fs_rename_cwd _ _ _ _ _ Ern) as Hc1.
  assert (Hd1 : is_directory w1 renamed = true).
  { unfold is_directory in *. rewrite Hn2. now rewrite Hn1 in Ed. }
  rewrite Hc1.
  destruct (compress_returns_on_directory w1
              (cwd w // path_of_string (new +++ ".zip")) renamed ws
              Hwf1 Hnr Hd1) as [w2 [out [processed [Ec [Hwf2 [Hc2 Hd2]]]]]].
  rewrite Ec. cbn [bind].
  destruct (fs_rename w2 renamed original) as [w3 restored] eqn:Er2.
  do 3 eexists. split; [reflexivity|].
  intros o r rest H. inversion H; subst o r rest; clear H.
  exists w2, out, processed, restored.
  rewrite Ern. cbn [fst].
  split; [exact Ec|]. split; [exact Er2|]. split; [reflexivity|].
  split; [reflexivity|].
  destruct restored.
  - destruct (fs_rename_succeeded w2 renamed original w3 Hwf2 Er2)
      as [_ [n' [Hn1' Hn2']]].
    unfold is_directory in *. rewrite Hn2'. now rewrite Hn1' in Hd2.
  - destruct (fs_rename_failed w2 renamed original w3 Er2) as [Hr Hc].
    unfold is_directory in *. now rewrite (lookup_ext w2 w3 renamed Hr Hc).
Qed.

Lemma rename_zip_attempts_restore_after_archiving_witness :
  exists w3 tr code,
    main stuck_world (CmdRenameZip "proj" "bar" true) = Ok (w3, tr, code)
    /\ forall original renamed rest,
         tr = FsRename original renamed true :: rest ->
         exists w2 out processed restored,
           compress (fst (fs_rename stuck_world original renamed))
                    (cwd stuck_world // path_of_string ("bar" +++ ".zip"))
                    renamed [] true []
           = Ok (w2, out, processed)
           /\ fs_rename w2 renamed original = (w3, restored)
           /\ rest
              = out
                ++ [BarMarkAsCompleted; FsRename renamed original restored]
                ++ (if restored then []
                    else [Cerr (WarnRestoreFailed (path_string renamed)
                                                  (path_string original))])
                ++ [Cout (MsgCompleted processed
                            (path_string
                               (cwd stuck_world
                                // path_of_string ("bar" +++ ".zip"))))]
           /\ code = 0%Z
           /\ is_directory w3 (if restored then original else renamed) = true.
Proof.
  apply (rename_zip_attempts_restore_after_archiving stuck_world "proj" "bar"
           true).
  reflexivity.
Defined.

(** The refused restore, run: the directory stays [/work/bar], the warning
    names both paths, and the run still reports completion. *)
Example restore_refused_run :
  match main stuck_world (CmdRenameZip "proj" "bar" false) with
  | Ok (w3, tr, code) =>
      tr = [FsRename proj_path (mkPath true ["work"; "bar"]) true;
            ZipEntryOpen "a.txt"; ZipEntryFwrite "/work/bar/a.txt";
            ZipEntryClose;
            ZipEntryOpen "sub/"; ZipEntryClose;
            ZipEntryOpen "sub/b.txt"; ZipEntryFwrite "/work/bar/sub/b.txt";
            ZipEntryClose; OnProgress 100;
            ZipClose; BarMarkAsCompleted;
            FsRename (mkPath true ["work"; "bar"]) proj_path false;
            Cerr (WarnRestoreFailed "/work/bar" "/work/proj");
            Cout (MsgCompleted 2 "/work/bar.zip")]
      /\ code = 0%Z
      /\ is_directory w3 (mkPath true ["work"; "bar"]) = true
      /\ fs_exists w3 proj_path = false
  | Threw => False
  end.
Proof. vm_compute. repeat split; reflexivity. Qed.

(* ===================================================================== *)
(** ** The two loops under an ignore set                                  *)
(* ===================================================================== *)

Lemma child_path_below : forall root_path rel name,
  child_path (below root_path rel) name = below root_path (rel ++ [name]).
Proof.
  intros. unfold child_path, below. cbn [absolute elems].
  now rewrite app_assoc.
Qed.

Lemma below_nil : forall root_path, below root_path [] = root_path.
Proof. intros [a l]. unfold below. cbn. now rewrite app_nil_r. Qed.

Lemma lexically_relative_of_below : forall root_path rel name,
  lexically_relative (below root_path (rel ++ [name])) root_path
  = mkPath false (rel ++ [name]).
Proof.
  intros. rewrite <- child_path_below. apply lexically_relative_below.
Qed.

Lemma wrapped_name : forall (ws : bool) wr s,
  (if ws then wr +++ s else s) = (if ws then wr else "") +++ s.
Proof. intros [|] wr s; reflexivity. Qed.

Section Verdicts.
Variable w : world.
Variables zip_path root_path : path.
Variable ignore_set : list path.
Variable windows_style : bool.
Variable wrapper_folder : string.
Variable total : Z.
Variable z : nat.
Variable ignored : list string -> bool.
Hypothesis zip_exists : file_id w zip_path = Some z.

Local Abbreviation dryv := (dry_body w root_path ignore_set).
Local Abbreviation livev :=
  (live_body w zip_path root_path ignore_set windows_style wrapper_folder
             total).
Local Abbreviation named :=
  (fun x => (if windows_style then wrapper_folder else "")
            +++ tree_entry_name x).

(** Both loops visit exactly the surviving nodes: the counting loop counts
    the regular files among them, the writing loop opens an entry for each
    directory and each regular file other than the archive. *)
Lemma passes_with_verdicts :
  (forall n rel name t p,
      file_id w (below root_path (rel ++ [name])) = node_id n ->
      coherent_node w (below root_path (rel ++ [name])) n ->
      (forall x, In x (walk_node rel name n) ->
                 should_ignore w root_path (below root_path (fst x)) ignore_set
                 = Ok (ignored (fst x))) ->
      (0 <= t)%Z -> (t + Z.of_nat (node_count n) <= int_max)%Z ->
      (0 <= p)%Z -> (p + Z.of_nat (node_count n) <= int_max)%Z ->
      rdi_node dryv (below root_path rel) name n t
      = Ok ([], (t + Z.of_nat (length (filter regular_node
                                 (surv_node ignored rel name n))))%Z)
      /\ (exists out,
            rdi_node livev (below root_path rel) name n p
            = Ok (out,
                  (p + Z.of_nat (length (filter (archived_file (Some z))
                                    (surv_node ignored rel name n))))%Z)
            /\ entry_names out
               = map named (filter (archived (Some z))
                                   (surv_node ignored rel name n)))
      /\ (length (surv_node ignored rel name n) <= node_count n)%nat)
  /\ (forall f rel t p,
      coherent_forest w (below root_path rel) f ->
      (forall x, In x (walk_forest rel f) ->
                 should_ignore w root_path (below root_path (fst x)) ignore_set
                 = Ok (ignored (fst x))) ->
      (0 <= t)%Z -> (t + Z.of_nat (forest_count f) <= int_max)%Z ->
      (0 <= p)%Z -> (p + Z.of_nat (forest_count f) <= int_max)%Z ->
      rdi_forest dryv (below root_path rel) f t
      = Ok ([], (t + Z.of_nat (length (filter regular_node
                                 (surv_forest ignored rel f))))%Z)
      /\ (exists out,
            rdi_forest livev (below root_path rel) f p
            = Ok (out,
                  (p + Z.of_nat (length (filter (archived_file (Some z))
                                    (surv_forest ignored rel f))))%Z)
            /\ entry_names out
               = map named (filter (archived (Some z))
                                   (surv_forest ignored rel f)))
      /\ (length (surv_forest ignored rel f) <= forest_count f)%nat).
Proof.
  apply node_forest_mutind.
  - (* regular file *)
    intros i rel name t p Hid _ Hv Ht0 Ht Hp0 Hp.
    rewrite !rdi_node_eq, dry_body_cases, live_body_cases.
    unfold entry_is_directory, entry_is_regular_file.
    cbn [entry_path entry_node node_is_directory node_is_regular_file
         node_count walk_node surv_node] in *.
    rewrite child_path_below, lexically_relative_of_below.
    assert (Hself : should_ignore w root_path
                      (below root_path (rel ++ [name])) ignore_set
                    = Ok (ignored (rel ++ [name])))
      by (apply (Hv (rel ++ [name], Regular i)); left; reflexivity).
    rewrite Hself. destruct (ignored (rel ++ [name])); cbn [bind filter length].
    + split; [now rewrite Z.add_0_r|]. split; [|lia].
      eexists. split; [now rewrite Z.add_0_r|reflexivity].
    + unfold regular_node, archived_file, archived.
      cbn [snd node_is_regular_file andb length].
      rewrite (int_incr_small t), (int_incr_small p) by lia.
      split; [reflexivity|]. split; [|lia].
      unfold equivalent. rewrite Hid, zip_exists. cbn [node_id bind].
      destruct (Nat.eqb i z); cbn [bind negb length map].
      * eexists. split; [now rewrite Z.add_0_r|reflexivity].
      * eexists. split; [reflexivity|].
        cbn [app entry_names]. rewrite entry_names_notify.
        rewrite wrapped_name. unfold tree_entry_name.
        cbn [fst snd node_is_directory generic_string absolute elems].
        now rewrite append_empty_r.
  - (* directory *)
    intros i d kids IH rel name t p Hid Hco Hv Ht0 Ht Hp0 Hp.
    rewrite !rdi_node_eq, dry_body_cases, live_body_cases.
    unfold entry_is_directory, entry_is_regular_file.
    cbn [entry_path entry_node node_is_directory node_is_regular_file
         node_count walk_node surv_node coherent_node] in *.
    rewrite child_path_below, lexically_relative_of_below.
    assert (Hself : should_ignore w root_path
                      (below root_path (rel ++ [name])) ignore_set
                    = Ok (ignored (rel ++ [name])))
      by (apply (Hv (rel ++ [name], Directory i d kids)); left; reflexivity).
    rewrite Hself. destruct (ignored (rel ++ [name])); cbn [bind orb filter length].
    + split; [now rewrite Z.add_0_r|]. split; [|lia].
      eexists. split; [now rewrite Z.add_0_r|reflexivity].
    + unfold regular_node at 1, archived_file at 1, archived at 1 2.
      cbn [snd node_is_regular_file andb].
      destruct d; cbn [bind filter length map].
      * split; [now rewrite Z.add_0_r|]. split; [|lia].
        eexists. split; [now rewrite Z.add_0_r|].
        cbn [entry_names]. rewrite wrapped_name. reflexivity.
      * destruct (IH (rel ++ [name]) t p Hco) as [Ed [[out [El Hn]] Hc]];
          try lia.
        { intros x Hx. apply Hv. now right. }
        rewrite Ed, El. cbn [bind app].
        split; [reflexivity|]. split; [|lia].
        eexists. split; [reflexivity|].
        cbn [entry_names]. rewrite wrapped_name, Hn. reflexivity.
  - (* other file *)
    intros i rel name t p Hid _ Hv Ht0 Ht Hp0 Hp.
    rewrite !rdi_node_eq, dry_body_cases, live_body_cases.
    unfold entry_is_directory, entry_is_regular_file.
    cbn [entry_path entry_node node_is_directory node_is_regular_file
         node_count walk_node surv_node] in *.
    rewrite child_path_below.
    assert (Hself : should_ignore w root_path
                      (below root_path (rel ++ [name])) ignore_set
                    = Ok (ignored (rel ++ [name])))
      by (apply (Hv (rel ++ [name], Special i)); left; reflexivity).
    rewrite Hself. destruct (ignored (rel ++ [name])); cbn [bind filter length];
      (split; [now rewrite Z.add_0_r|]; split; [|lia];
       eexists; split; [now rewrite Z.add_0_r|reflexivity]).
  - (* dangling link *)
    intros rel name t p Hid _ Hv Ht0 Ht Hp0 Hp.
    rewrite !rdi_node_eq, dry_body_cases, live_body_cases.
    unfold entry_is_directory, entry_is_regular_file.
    cbn [entry_path entry_node node_is_directory node_is_regular_file
         node_count walk_node surv_node] in *.
    rewrite child_path_below.
    assert (Hself : should_ignore w root_path
                      (below root_path (rel ++ [name])) ignore_set
                    = Ok (ignored (rel ++ [name])))
      by (apply (Hv (rel ++ [name], Dangling)); left; reflexivity).
    rewrite Hself. destruct (ignored (rel ++ [name])); cbn [bind filter length];
      (split; [now rewrite Z.add_0_r|]; split; [|lia];
       eexists; split; [now rewrite Z.add_0_r|reflexivity]).
  - intros rel t p _ _ Ht0 Ht Hp0 Hp. cbn.
    split; [now rewrite Z.add_0_r|]. split; [|lia].
    eexists. split; [now rewrite Z.add_0_r|reflexivity].
  - intros name n IHn rest IHr rel t p Hco Hv Ht0 Ht Hp0 Hp.
    rewrite !rdi_forest_cons.
    cbn [coherent_forest forest_count walk_forest surv_forest] in *.
    rewrite child_path_below in Hco. destruct Hco as [Hid [Hn Hr]].
    destruct (IHn rel name t p Hid Hn) as [Ed1 [[out1 [El1 N1]] C1]];
      try lia.
    { intros x Hx. apply Hv. apply in_or_app. now left. }
    pose proof (filter_length_le regular_node (surv_node ignored rel name n))
      as B1.
    pose proof (filter_length_le (archived_file (Some z))
                                 (surv_node ignored rel name n)) as B2.
    rewrite Ed1, El1. cbn [bind].
    match type of Ed1 with
    | _ = Ok (_, ?t1) =>
        match type of El1 with
        | _ = Ok (_, ?p1) =>
            destruct (IHr rel t1 p1 Hr) as [Ed2 [[out2 [El2 N2]] C2]];
              try lia
        end
    end.
    { intros x Hx. apply Hv. apply in_or_app. now right. }
    rewrite Ed2, El2. cbn [bind app].
    rewrite !filter_app, !length_app.
    split; [do 2 f_equal; lia|]. split; [|lia].
    eexists. split; [do 2 f_equal; lia|].
    now rewrite entry_names_app, map_app, N1, N2.
Qed.
End Verdicts.

(* ===================================================================== *)
(** ** The contents of the archive                                        *)
(* ===================================================================== *)

Lemma extra_step_cases : forall w zip_path total z x p,
  file_id w zip_path = Some z ->
  exists evs,
    entry_names evs = []
    /\ extra_step w zip_path total x p
       = if extra_written w zip_path x
         then Ok ([ZipEntryOpen (snd x);
                   ZipEntryFwrite (path_string (fst x));
                   ZipEntryClose]
                  ++ notify total (int_incr p), int_incr p)
         else Ok (evs, p).
Proof.
  intros w zip_path total z [src name] p Hz.
  unfold extra_step, extra_written, identical, equivalent, fs_exists.
  cbn [fst snd]. rewrite Hz.
  destruct (file_id w src) as [i|]; cbn [negb orb andb bind];
    [|exists []; split; reflexivity].
  destruct (is_regular_file w src); cbn [negb orb andb bind];
    [|exists []; split; reflexivity].
  destruct (Nat.eqb i z); cbn [negb bind].
  - exists [Cout MsgZipFileIsExist]. split; reflexivity.
  - exists []. split; reflexivity.
Qed.

Lemma extra_loop_contents : forall w zip_path total z,
  file_id w zip_path = Some z ->
  forall l p,
  (0 <= p)%Z -> (p + Z.of_nat (length l) <= int_max)%Z ->
  exists out,
    extra_loop w zip_path total l p
    = Ok (out,
          (p + Z.of_nat (length (filter (extra_written w zip_path) l)))%Z)
    /\ entry_names out = map snd (filter (extra_written w zip_path) l).
Proof.
  intros w zip_path total z Hz l.
  induction l as [|x l IH]; intros p Hp0 Hp.
  - exists []. simpl. now rewrite Z.add_0_r.
  - cbn [extra_loop length filter] in *.
    destruct (extra_step_cases w zip_path total z x p Hz) as [evs [Hevs Es]].
    rewrite Es. destruct (extra_written w zip_path x); cbn [bind].
    + rewrite (int_incr_small p) by lia.
      destruct (IH (p + 1)%Z) as [out [E N]]; [lia|lia|].
      rewrite E. cbn [bind length map]. eexists.
      split; [do 2 f_equal; lia|].
      cbn [app entry_names]. rewrite entry_names_app, entry_names_notify.
      cbn [app]. now rewrite N.
    + destruct (IH p Hp0) as [out [E N]]; [lia|].
      rewrite E. cbn [bind]. eexists. split; [reflexivity|].
      now rewrite entry_names_app, Hevs.
Qed.

(** Both loops of [compress] under an ignore set, from the root. *)
Lemma compress_under_verdicts :
  forall w zip_path root_path ignore_set windows_style extra_files w1 ignored,
    wf_world w = true ->
    normal_path root_path = true ->
    zip_open w zip_path = Some w1 ->
    is_directory w1 root_path = true ->
    verdicts w1 root_path ignore_set ignored ->
    (Z.of_nat (length extra_files + tree_size w1 root_path) <= int_max)%Z ->
    count_total w1 root_path ignore_set extra_files
    = Ok (Z.of_nat (length extra_files
                    + length (filter regular_node
                                (survivors w1 root_path ignored))))
    /\ exists tr,
         compress w zip_path root_path ignore_set windows_style extra_files
         = Ok (w1, tr,
               Z.of_nat
                 (length (filter (archived_file (file_id w1 zip_path))
                            (survivors w1 root_path ignored))
                  + length (filter (extra_written w1 zip_path) extra_files)))
         /\ entry_names tr
            = map (wrapped_entry_name windows_style root_path)
                  (filter (archived (file_id w1 zip_path))
                          (survivors w1 root_path ignored))
              ++ map snd (filter (extra_written w1 zip_path) extra_files).
Proof.
  intros w zip_path root_path ignore_set windows_style extra_files w1 ignored
         Hwf Hroot Hopen Hdir Hv Hsize.
  destruct (zip_open_exists w zip_path w1 Hopen) as [z Hz].
  pose proof (zip_open_wf w zip_path w1 Hwf Hopen) as Hwf1.
  unfold compress. rewrite Hopen, Hz.
  unfold count_total, rdi_loop, survivors. unfold verdicts, walk in Hv.
  unfold is_directory in Hdir. unfold tree_size in Hsize.
  destruct (lookup w1 root_path) as [[i|i d kids|i|]|] eqn:El;
    try discriminate.
  cbn [node_count] in Hsize.
  rewrite int_of_size_small by lia.
  pose proof (filter_length_le (extra_written w1 zip_path) extra_files) as Hx.
  destruct d.
  - cbn [bind filter length Nat.add]. rewrite Nat.add_0_r.
    split; [reflexivity|].
    destruct (extra_loop_contents w1 zip_path (Z.of_nat (length extra_files))
                z Hz extra_files 0%Z) as [out [E N]]; [lia|lia|].
    rewrite E. cbn [bind app map]. eexists. split; [reflexivity|].
    rewrite entry_names_app. cbn [entry_names]. now rewrite app_nil_r.
  - pose proof (wf_world_coherent w1 root_path _ Hwf1 Hroot El) as Hco.
    cbn [coherent_node] in Hco.
    set (total := Z.of_nat (length extra_files
                            + length (filter regular_node
                                        (surv_forest ignored [] kids)))).
    destruct (proj2 (passes_with_verdicts w1 zip_path root_path ignore_set
                       windows_style
                       (if windows_style
                        then path_string (filename root_path) +++ "/"
                        else "") total z ignored Hz)
                    kids [] (Z.of_nat (length extra_files)) 0%Z)
      as [Ed [[out1 [El1 N1]] C1]]; rewrite ?below_nil; auto; try lia.
    rewrite below_nil in Ed, El1.
    rewrite Ed. cbn [bind].
    replace (Z.of_nat (length extra_files)
             + Z.of_nat (length (filter regular_node
                                   (surv_forest ignored [] kids))))%Z
      with total by (unfold total; lia).
    split; [reflexivity|].
    rewrite El1. cbn [bind].
    pose proof (filter_length_le (archived_file (Some z))
                                 (surv_forest ignored [] kids)) as Ha.
    match type of El1 with
    | _ = Ok (_, ?p1) =>
        destruct (extra_loop_contents w1 zip_path total z Hz extra_files p1)
          as [out2 [E2 N2]]; [lia|lia|]
    end.
    rewrite E2. cbn [bind]. eexists. split; [do 2 f_equal; lia|].
    rewrite !entry_names_app, N1, N2. cbn [entry_names].
    rewrite app_nil_r. f_equal. apply map_ext. intros x.
    unfold wrapped_entry_name, wrapper_of. now destruct windows_style.
Qed.


Lemma pruning_verdicts :
  verdicts pruning_opened proj_path
           (make_ignore_set (mkPath true ["work"]) ["skip"; "a.txt"])
           pruning_ignored.
Proof.
  intros x Hx. vm_compute in Hx.
  repeat (destruct Hx as [<-|Hx]; [vm_compute; reflexivity|]).
  destruct Hx.
Qed.

(** X1.  The contents of the archive under an ignore set: when the matcher
    gives a verdict on every node of the walk, the archive holds, in
    traversal order, one entry for each directory and each regular file
    other than the archive among the nodes that are not ignored and lie
    under no ignored directory, named by their relative paths (with the
    wrapper folder when asked for); then one entry for each extra file that
    still exists, is regular and is not the archive, under its precomputed
    name.  The returned count is the number of files among them. *)
Theorem archive_contents_under_ignore_set :
  forall w zip_path root_path ignore_set windows_style extra_files w1 ignored,
    wf_world w = true ->
    normal_path root_path = true ->
    zip_open w zip_path = Some w1 ->
    is_directory w1 root_path = true ->
    verdicts w1 root_path ignore_set ignored ->
    (Z.of_nat (length extra_files + tree_size w1 root_path) <= int_max)%Z ->
    exists tr,
      compress w zip_path root_path ignore_set windows_style extra_files
      = Ok (w1, tr,
            Z.of_nat
              (length (filter (archived_file (file_id w1 zip_path))
                         (survivors w1 root_path ignored))
               + length (filter (extra_written w1 zip_path) extra_files)))
      /\ entry_names tr
         = map (wrapped_entry_name windows_style root_path)
               (filter (archived (file_id w1 zip_path))
                       (survivors w1 root_path ignored))
           ++ map snd (filter (extra_written w1 zip_path) extra_files).
Proof.
  intros w zip_path root_path ignore_set windows_style extra_files w1 ignored
         Hwf Hroot Hopen Hdir Hv Hsize.
  exact (proj2 (compress_under_verdicts w zip_path root_path ignore_set
                  windows_style extra_files w1 ignored
                  Hwf Hroot Hopen Hdir Hv Hsize)).
Qed.

Lemma archive_contents_under_ignore_set_witness :
  exists tr,
    compress pruning_world (mkPath true ["work"; "out.zip"]) proj_path
             (make_ignore_set (mkPath true ["work"]) ["skip"; "a.txt"]) true
             [(mkPath true ["work"; "extra.md"], "extra.md");
              (mkPath true ["work"; "gone.md"], "gone.md")]
    = Ok (pruning_opened, tr,
          Z.of_nat
            (length (filter (archived_file
                               (file_id pruning_opened
                                  (mkPath true ["work"; "out.zip"])))
                       (survivors pruning_opened proj_path pruning_ignored))
             + length (filter (extra_written pruning_opened
                                 (mkPath true ["work"; "out.zip"]))
                         [(mkPath true ["work"; "extra.md"], "extra.md");
                          (mkPath true ["work"; "gone.md"], "gone.md")])))
    /\ entry_names tr
       = map (wrapped_entry_name true proj_path)
             (filter (archived (file_id pruning_opened
                                  (mkPath true ["work"; "out.zip"])))
                     (survivors pruning_opened proj_path pruning_ignored))
         ++ map snd (filter (extra_written pruning_opened
                               (mkPath true ["work"; "out.zip"]))
                       [(mkPath true ["work"; "extra.md"], "extra.md");
                        (mkPath true ["work"; "gone.md"], "gone.md")]).
Proof.
  apply (archive_contents_under_ignore_set pruning_world
           (mkPath true ["work"; "out.zip"]) proj_path
           (make_ignore_set (mkPath true ["work"]) ["skip"; "a.txt"]) true
           [(mkPath true ["work"; "extra.md"], "extra.md");
            (mkPath true ["work"; "gone.md"], "gone.md")]
           pruning_opened pruning_ignored).
  - reflexivity.
  - reflexivity.
  - reflexivity.
  - reflexivity.
  - exact pruning_verdicts.
  - vm_compute; discriminate.
Defined.

(** The archive of the witness, spelled out. *)
Example pruning_run :
  match compress pruning_world (mkPath true ["work"; "out.zip"]) proj_path
                 (make_ignore_set (mkPath true ["work"]) ["skip"; "a.txt"])
                 true
                 [(mkPath true ["work"; "extra.md"], "extra.md");
                  (mkPath true ["work"; "gone.md"], "gone.md")] with
  | Ok (_, tr, processed) =>
      entry_names tr = ["proj/keep/"; "proj/keep/k.txt"; "extra.md"]
      /\ processed = 2%Z
  | Threw => False
  end.
Proof. vm_compute. split; reflexivity. Qed.





(* ===================================================================== *)
(** ** Further properties of the archive builder                          *)
(* ===================================================================== *)

(** X4.  The returned count never exceeds the progress total, and the total
    never exceeds the number of extra files plus the number of nodes of the
    tree: the percentage handed to the progress bar cannot pass 100. *)
Theorem processed_never_exceeds_total :
  forall w zip_path root_path ignore_set windows_style extra_files w1 total,
    wf_world w = true ->
    normal_path root_path = true ->
    zip_open w zip_path = Some w1 ->
    count_total w1 root_path ignore_set extra_files = Ok total ->
    (Z.of_nat (length extra_files + tree_size w1 root_path) <= int_max)%Z ->
    exists tr processed,
      compress w zip_path root_path ignore_set windows_style extra_files
      = Ok (w1, tr, processed)
      /\ (0 <= processed <= total)%Z
      /\ (total <= Z.of_nat (length extra_files + tree_size w1 root_path))%Z.
Proof.
  intros w zip_path root_path ignore_set windows_style extra_files w1 total
         Hwf Hroot Hopen Hcount Hsize.
  destruct (compress_ticks w zip_path root_path ignore_set windows_style
              extra_files w1 total Hwf Hroot Hopen Hcount Hsize)
    as [tr [c [E [Hc [Hb _]]]]].
  exists tr, (Z.of_nat c). split; [exact E|]. split; [lia|exact Hb].
Qed.

Lemma processed_never_exceeds_total_witness :
  exists tr processed,
    compress inside_world (mkPath true ["work"; "proj"; "output.zip"])
             proj_path [] false []
    = Ok (match zip_open inside_world
                  (mkPath true ["work"; "proj"; "output.zip"]) with
          | Some w1 => w1
          | None => inside_world
          end, tr, processed)
    /\ (0 <= processed <= 3)%Z
    /\ (3 <= Z.of_nat
               (length (@nil (path * string))
                + tree_size
                    (match zip_open inside_world
                           (mkPath true ["work"; "proj"; "output.zip"]) with
                     | Some w1 => w1
                     | None => inside_world
                     end) proj_path))%Z.
Proof.
  apply (processed_never_exceeds_total inside_world
           (mkPath true ["work"; "proj"; "output.zip"]) proj_path [] false []).
  - reflexivity.
  - reflexivity.
  - reflexivity.
  - vm_compute; reflexivity.
  - vm_compute; discriminate.
Defined.

Lemma any_of_ext : forall (A : Type) (f g : A -> outcome bool) (l : list A),
  (forall x, In x l -> f x = g x) -> any_of f l = any_of g l.
Proof.
  intros A f g l; induction l as [|x l IH]; intros H; [reflexivity|].
  simpl. rewrite (H x) by (left; reflexivity).
  destruct (g x) as [[|]|]; simpl; auto.
  apply IH. intros y Hy. apply H. now right.
Qed.

(** X5.  Absolute ignore paths do not depend on the root: [root_path /
    ignore_rel] is [ignore_rel] itself when that is absolute, so the test
    gives the same answer whatever directory is being archived. *)
Theorem absolute_ignore_paths_ignore_the_root :
  forall w root1 root2 candidate ignore_list,
    (forall p, In p ignore_list -> absolute p = true) ->
    should_ignore w root1 candidate ignore_list
    = should_ignore w root2 candidate ignore_list.
Proof.
  intros w root1 root2 candidate ignore_list Habs.
  unfold should_ignore. destruct ignore_list as [|p l]; [reflexivity|].
  apply any_of_ext. intros q Hq. unfold path_append.
  now rewrite (Habs q Hq).
Qed.

Lemma absolute_ignore_paths_ignore_the_root_witness :
  should_ignore sample_world proj_path (mkPath true ["work"; "proj"; "sub"])
                absolute_ignores
  = should_ignore sample_world (mkPath true ["tmp"])
                  (mkPath true ["work"; "proj"; "sub"]) absolute_ignores.
Proof.
  apply (absolute_ignore_paths_ignore_the_root sample_world proj_path
           (mkPath true ["tmp"]) (mkPath true ["work"; "proj"; "sub"])
           absolute_ignores).
  intros p [<-|[<-|[]]]; reflexivity.
Defined.




(* ===================================================================== *)
(** ** Validation of the [zip] command                                    *)
(* ===================================================================== *)

Lemma not_exists_not_regular : forall w p,
  fs_exists w p = false -> is_regular_file w p = false.
Proof.
  intros w p H. unfold fs_exists, file_id, is_regular_file in *.
  destruct (lookup w p) as [[i|i d kids|i|]|]; simpl in *;
    try discriminate; reflexivity.
Qed.

Lemma regular_exists : forall w p,
  is_regular_file w p = true -> fs_exists w p = true.
Proof.
  intros w p H. destruct (fs_exists w p) eqn:E; [reflexivity|].
  now rewrite (not_exists_not_regular w p E) in H.
Qed.

(** The loop over the extra inputs stops at an input exactly when some
    input that is not empty does not name a regular file. *)
Lemma extra_bindings_fail_iff : forall w extra_inputs,
  (exists m, extra_bindings w extra_inputs = inl m)
  <-> exists s, In s extra_inputs /\ s <> ""
                /\ is_regular_file w (canonical_input w s) = false.
Proof.
  intros w l; induction l as [|s l IH]; simpl.
  - split; [intros [m H]; discriminate|intros [s [[] _]]].
  - destruct (String.eqb s "") eqn:Es.
    + apply String.eqb_eq in Es. subst s. rewrite IH. split.
      * intros [s [H1 H2]]. exists s. auto.
      * intros [s [[<-|H1] [H2 H3]]]; [congruence|]. exists s. auto.
    + apply String.eqb_neq in Es. fold (canonical_input w s).
      destruct (fs_exists w (canonical_input w s)) eqn:Ee; cbn [negb].
      2:{ split; [|eauto]. intros _. exists s.
          split; [now left|]. split; [exact Es|].
          now apply not_exists_not_regular. }
      destruct (is_regular_file w (canonical_input w s)) eqn:Er; cbn [negb].
      2:{ split; [|eauto]. intros _. exists s. auto. }
      destruct (extra_bindings w l) as [m|bs].
      * split; [|eauto]. intros _.
        destruct (proj1 IH) as [s' [H1 H2]]; [eauto|]. exists s'. auto.
      * split; [intros [m H]; discriminate|].
        intros [s' [[<-|H1] [H2 H3]]]; [congruence|].
        destruct (proj2 IH) as [m H]; [eauto|discriminate].
Qed.

(** X7.  The [zip] command validates before it archives.  A run that
    returns ends with status 0 or -1; with status -1 it has printed one
    diagnostic and nothing else, and has left the file system alone, no
    archive having been opened.  It ends with status -1 exactly when the
    root does not exist or some non-empty extra input does not name a
    regular file. *)
Theorem zip_validates_before_archiving :
  forall w zip_name dir_arg ignores extra_inputs windows_style,
    (forall w' tr code,
        main w (CmdZip zip_name dir_arg ignores extra_inputs windows_style)
        = Ok (w', tr, code) ->
        code = 0%Z
        \/ (code = (-1)%Z /\ w' = w /\ exists m, tr = [Cerr m]))
    /\ ((exists w' tr,
            main w (CmdZip zip_name dir_arg ignores extra_inputs windows_style)
            = Ok (w', tr, (-1)%Z))
        <-> (fs_exists w (canonical_input w dir_arg) = false
             \/ exists s, In s extra_inputs /\ s <> ""
                          /\ is_regular_file w (canonical_input w s) = false)).
Proof.
  intros w zip_name dir_arg ignores extra_inputs windows_style.
  unfold main, main_zip. fold (canonical_input w dir_arg).
  pose proof (extra_bindings_fail_iff w extra_inputs) as Hiff.
  destruct (fs_exists w (canonical_input w dir_arg)) eqn:Ee; cbn [negb].
  2:{ split.
      - intros w' tr code H. inversion H; subst. right. eauto.
      - split; [auto|]. intros _. eauto. }
  destruct (extra_bindings w extra_inputs) as [m|bs].
  { split.
    - intros w' tr code H. inversion H; subst. right. eauto.
    - split; [|eauto]. intros _. right. apply Hiff. eauto. }
  split.
  - intros w' tr code H.
    destruct (compress w _ _ _ windows_style bs) as [[[w1 out] n]|];
      [|discriminate].
    cbn [bind] in H. inversion H; subst. now left.
  - split.
    + intros [w' [tr H]].
      destruct (compress w _ _ _ windows_style bs) as [[[w1 out] n]|];
        [|discriminate].
      cbn [bind] in H. inversion H.
    + intros [H|H]; [discriminate|].
      apply Hiff in H. destruct H as [m H]. discriminate.
Qed.

(** X8.  The bindings [main] hands to [compress]: one for each input that
    is not empty, in the order given, each with the canonical absolute path
    of the input, which exists and is a regular file, and with the archive
    name computed from that path. *)
Theorem extra_bindings_are_validated :
  forall w extra_inputs extra_files,
    extra_bindings w extra_inputs = inr extra_files ->
    map fst extra_files
    = map (canonical_input w) (filter nonempty extra_inputs)
    /\ forall b, In b extra_files ->
         fs_exists w (fst b) = true
         /\ is_regular_file w (fst b) = true
         /\ snd b = extra_entry_name w (fst b).
Proof.
  intros w l; induction l as [|s l IH]; intros bs H; simpl in H.
  - inversion H; subst. split; [reflexivity|]. intros b [].
  - cbn [filter]. unfold nonempty at 1.
    destruct (String.eqb s "") eqn:Es; cbn [negb]; [now apply IH|].
    fold (canonical_input w s) in H.
    destruct (fs_exists w (canonical_input w s)) eqn:Ee; cbn [negb] in H;
      [|discriminate].
    destruct (is_regular_file w (canonical_input w s)) eqn:Er;
      cbn [negb] in H; [|discriminate].
    destruct (extra_bindings w l) as [m|bs']; [discriminate|].
    inversion H; subst; clear H.
    destruct (IH bs' eq_refl) as [H1 H2]. split.
    + cbn [map fst]. now rewrite H1.
    + intros b [<-|Hb]; [cbn [fst snd]; auto|now apply H2].
Qed.

Lemma extra_bindings_are_validated_witness :
  map fst [(mkPath true ["work"; "proj"; "sub"; "b.txt"], "proj/sub/b.txt");
           (mkPath true ["tmp"; "notes.md"], "notes.md")]
  = map (canonical_input sample_world)
        (filter nonempty ["proj/./sub/b.txt"; ""; "/tmp/notes.md"])
  /\ forall b,
       In b [(mkPath true ["work"; "proj"; "sub"; "b.txt"], "proj/sub/b.txt");
             (mkPath true ["tmp"; "notes.md"], "notes.md")] ->
       fs_exists sample_world (fst b) = true
       /\ is_regular_file sample_world (fst b) = true
       /\ snd b = extra_entry_name sample_world (fst b).
Proof.
  apply (extra_bindings_are_validated sample_world
           ["proj/./sub/b.txt"; ""; "/tmp/notes.md"]).
  reflexivity.
Defined.

(* ===================================================================== *)
(** ** What opening the archive leaves as it was                          *)
(* ===================================================================== *)

(** A new entry at the end of a directory leaves every file there was
    under its name, with its identity and its kind. *)
Lemma update_dir_add_keeps_files : forall l name n0 r r',
  update_dir l (add_child name n0) r = Some r' ->
  forall q m, descend r q = Some m ->
    exists m', descend r' q = Some m'
               /\ node_id m' = node_id m
               /\ node_is_regular_file m' = node_is_regular_file m
               /\ node_is_directory m' = node_is_directory m.
Proof.
  induction l as [|a l IH]; intros name n0 r r' H q m Hq;
    destruct r as [j|j e kids|j|]; simpl in H; try discriminate.
  - inversion H; subst; clear H. destruct q as [|y q].
    + simpl in *. inversion Hq; subst. eexists. split; [reflexivity|]. auto.
    + simpl in *. rewrite find_child_add_child.
      destruct (find_child kids y); [eauto|discriminate].
  - destruct (map_child a (update_dir l (add_child name n0)) kids)
      as [kids'|] eqn:Em; [|discriminate].
    inversion H; subst; clear H. destruct q as [|y q].
    + simpl in *. inversion Hq; subst. eexists. split; [reflexivity|]. auto.
    + destruct (map_child_find kids a _ kids' Em) as [c [c' [H1 [H2 [H3 H4]]]]].
      simpl in *. destruct (String.eqb a y) eqn:E.
      * apply String.eqb_eq in E; subst y. rewrite H1 in Hq. rewrite H3.
        now apply (IH name n0 c c' H2 q m).
      * rewrite H4 by exact E. eauto.
Qed.

(** A new regular file creates no directory. *)
Lemma update_dir_add_file_new : forall l name f r r',
  update_dir l (add_child name (Regular f)) r = Some r' ->
  forall q, descend r q = None ->
    descend r' q = None \/ descend r' q = Some (Regular f).
Proof.
  induction l as [|a l IH]; intros name f r r' H q Hq;
    destruct r as [j|j e kids|j|]; simpl in H; try discriminate.
  - inversion H; subst; clear H. destruct q as [|y q]; [discriminate|].
    simpl in *. rewrite find_child_add_child.
    destruct (find_child kids y); [now left|].
    destruct (String.eqb name y); [|now left].
    destruct q; simpl; auto.
  - destruct (map_child a (update_dir l (add_child name (Regular f))) kids)
      as [kids'|] eqn:Em; [|discriminate].
    inversion H; subst; clear H. destruct q as [|y q]; [discriminate|].
    destruct (map_child_find kids a _ kids' Em) as [c [c' [H1 [H2 [H3 H4]]]]].
    simpl in *. destruct (String.eqb a y) eqn:E.
    + apply String.eqb_eq in E; subst y. rewrite H1 in Hq. rewrite H3.
      now apply (IH name f c c' H2 q).
    + rewrite H4 by exact E. now left.
Qed.

Lemma create_file_lookup : forall w p w1 q,
  create_file w p = Some w1 ->
  match lookup w q with
  | Some m =>
      exists m', lookup w1 q = Some m'
                 /\ node_id m' = node_id m
                 /\ node_is_regular_file m' = node_is_regular_file m
                 /\ node_is_directory m' = node_is_directory m
  | None =>
      lookup w1 q = None \/ exists f, lookup w1 q = Some (Regular f)
  end.
Proof.
  intros w p w1 q H. pose proof (create_file_cwd w p w1 H) as Hc.
  unfold lookup.
  replace (weakly_canonical w1 q) with (weakly_canonical w q)
    by (unfold weakly_canonical, absolute_of; now rewrite Hc).
  unfold create_file in H.
  destruct (descend (fsroot w) (elems (weakly_canonical w p)))
    as [[i|i d kids|i|]|]; try discriminate.
  1,2: inversion H; subst;
       destruct (descend (fsroot w1) (elems (weakly_canonical w1 q)));
       eauto 10.
  destruct (rev (elems (weakly_canonical w p))) as [|name t];
    [discriminate|].
  destruct (update_dir _ _ (fsroot w)) as [r|] eqn:Eu; [|discriminate].
  inversion H; subst; clear H. simpl.
  destruct (descend (fsroot w) (elems (weakly_canonical w q))) as [m|] eqn:Ed.
  - now apply (update_dir_add_keeps_files _ _ _ _ _ Eu).
  - destruct (update_dir_add_file_new _ _ _ _ _ Eu _ Ed) as [E|E]; eauto.
Qed.

Lemma zip_open_lookup : forall w p w1 q,
  zip_open w p = Some w1 ->
  match lookup w q with
  | Some m =>
      exists m', lookup w1 q = Some m'
                 /\ node_id m' = node_id m
                 /\ node_is_regular_file m' = node_is_regular_file m
                 /\ node_is_directory m' = node_is_directory m
  | None =>
      lookup w1 q = None \/ exists f, lookup w1 q = Some (Regular f)
  end.
Proof.
  intros w p w1 q H. unfold zip_open in H.
  destruct (zip_open_ok w); [|discriminate].
  now apply (create_file_lookup w p).
Qed.



(** X10.  The [zip] command only checks that the root exists.  Given a root
    that is not a directory (a regular file, say), with valid extra files
    and an archive that can be opened, the run ends in an uncaught
    exception: the directory iterator cannot be constructed. *)
Theorem zip_of_a_non_directory_throws :
  forall w zip_name dir_arg ignores extra_inputs windows_style extra_files w1,
    fs_exists w (canonical_input w dir_arg) = true ->
    is_directory w (canonical_input w dir_arg) = false ->
    extra_bindings w extra_inputs = inr extra_files ->
    zip_open w (cwd w // path_of_string zip_name) = Some w1 ->
    main w (CmdZip zip_name dir_arg ignores extra_inputs windows_style)
    = Threw.
Proof.
  intros w zip_name dir_arg ignores extra_inputs windows_style extra_files w1
         He Hd Hb Hopen.
  unfold main, main_zip. fold (canonical_input w dir_arg).
  rewrite He, Hb. cbn [negb]. unfold compress. rewrite Hopen.
  unfold count_total, rdi_loop.
  pose proof (zip_open_lookup w _ w1 (canonical_input w dir_arg) Hopen) as Hl.
  unfold is_directory in Hd.
  destruct (lookup w (canonical_input w dir_arg)) as [m|].
  - destruct Hl as [m' [E [_ [_ Hdir]]]]. rewrite E.
    rewrite Hd in Hdir. destruct m'; try reflexivity. discriminate.
  - destruct Hl as [E|[f E]]; rewrite E; reflexivity.
Qed.

Lemma zip_of_a_non_directory_throws_witness :
  main sample_world (CmdZip "o.zip" "proj/a.txt" ["sub"] ["/tmp/notes.md"] true)
  = Threw.
Proof.
  apply (zip_of_a_non_directory_throws sample_world "o.zip" "proj/a.txt"
           ["sub"] ["/tmp/notes.md"] true
           [(mkPath true ["tmp"; "notes.md"], "notes.md")]
           (match zip_open sample_world (mkPath true ["work"; "o.zip"]) with
            | Some w1 => w1
            | None => sample_world
            end)); reflexivity.
Defined.

(* ===================================================================== *)
(** ** Further properties of the rename-zip mode                          *)
(* ===================================================================== *)

(** X11.  A rename-zip run that ends with a status other than 0 ends with
    status -1, its last line is a diagnostic on the error stream, it has
    written nothing into any archive, and the file tree is as it was:
    nothing stays renamed and no archive has been created. *)
Theorem failed_rename_zip_changes_nothing :
  forall w rz_dir_arg rz_new_name rz_windows_style w' tr code,
    main w (CmdRenameZip rz_dir_arg rz_new_name rz_windows_style)
    = Ok (w', tr, code) ->
    code <> 0%Z ->
    code = (-1)%Z
    /\ fsroot w' = fsroot w /\ cwd w' = cwd w
    /\ entry_names tr = [] /\ files_written tr = 0
    /\ exists m, last tr ZipClose = Cerr m.
Proof.
  intros w dir new ws w' tr code H Hcode.
  unfold main, main_rename_zip in H. cbv zeta in H.
  destruct (fs_exists w (weakly_canonical w (cwd w // path_of_string dir)));
    cbn [negb] in H.
  2:{ inversion H; subst. repeat split; try reflexivity; cbn; eauto. }
  destruct (is_directory w (weakly_canonical w (cwd w // path_of_string dir)));
    cbn [negb] in H.
  2:{ inversion H; subst. repeat split; try reflexivity; cbn; eauto. }
  destruct (String.eqb new "" || find_first_of new "\/:").
  { inversion H; subst. repeat split; try reflexivity; cbn; eauto. }
  destruct (fs_exists w _).
  { inversion H; subst. repeat split; try reflexivity; cbn; eauto. }
  destruct (fs_rename w _ _) as [w1 ok] eqn:Ern.
  destruct ok; cbn [negb] in H.
  - destruct (compress w1 _ _ _ ws _) as [[[w2 out] n]|]; [|discriminate].
    cbn [bind] in H. destruct (fs_rename w2 _ _) as [w3 restored].
    inversion H; subst. congruence.
  - inversion H; subst.
    destruct (fs_rename_failed _ _ _ _ Ern) as [Hr Hc].
    repeat split; try reflexivity; try assumption; cbn; eauto.
Qed.

Lemma failed_rename_zip_changes_nothing_witness :
  (-1)%Z = (-1)%Z
  /\ fsroot (mkWorld sample_root (mkPath true ["work"]) false true [])
     = fsroot refusing_world
  /\ cwd (mkWorld sample_root (mkPath true ["work"]) false true [])
     = cwd refusing_world
  /\ entry_names
       [FsRename proj_path (mkPath true ["work"; "bar"]) false;
        Cerr ErrRenameFailed] = []
  /\ files_written
       [FsRename proj_path (mkPath true ["work"; "bar"]) false;
        Cerr ErrRenameFailed] = 0
  /\ exists m,
       last [FsRename proj_path (mkPath true ["work"; "bar"]) false;
             Cerr ErrRenameFailed] ZipClose = Cerr m.
Proof.
  apply (failed_rename_zip_changes_nothing refusing_world "proj" "bar" true).
  - reflexivity.
  - discriminate.
Defined.





(* ===================================================================== *)
(** ** The archive names of the extra files                               *)
(* ===================================================================== *)

Lemma lexically_relative_inside : forall base rel,
  rel <> [] ->
  lexically_relative (below base rel) base = mkPath false rel.
Proof.
  intros base rel Hrel. unfold lexically_relative, below.
  cbn [absolute elems]. rewrite Bool.eqb_reflx. cbn [negb].
  rewrite mismatch_prefix. destruct rel as [|x l]; [congruence|reflexivity].
Qed.

(** X13.  An extra file below the invocation directory is archived under
    its path relative to that directory, written with forward slashes,
    provided the text of that path is not empty and does not begin with two
    dots. *)
Theorem extra_name_below_the_invocation_directory :
  forall w rel,
    normal_path (cwd w) = true ->
    forallb plain rel = true ->
    rel <> [] ->
    String.eqb (String.concat "/" rel) "" = false ->
    String.prefix ".." (String.concat "/" rel) = false ->
    extra_entry_name w (below (cwd w) rel) = String.concat "/" rel.
Proof.
  intros w rel Hcwd Hplain Hrel Hne Hdots.
  assert (Hn : normal_path (below (cwd w) rel) = true).
  { unfold normal_path in *. apply andb_true_iff in Hcwd.
    destruct Hcwd as [Ha Hl]. unfold below. cbn [absolute elems].
    now rewrite Ha, forallb_app, Hl, Hplain. }
  unfold extra_entry_name, fs_relative.
  rewrite (weakly_canonical_id w _ Hn), (weakly_canonical_id w _ Hcwd).
  rewrite lexically_relative_inside by exact Hrel.
  assert (Hnorm : lexically_normal (mkPath false rel) = mkPath false rel).
  { unfold lexically_normal. cbn [elems absolute].
    destruct rel as [|x l]; [congruence|].
    now rewrite normal_elems_of_plain by exact Hplain. }
  rewrite Hnorm. unfold generic_string at 1 2 3. cbn [absolute elems].
  cbn [String.append]. now rewrite Hne, Hdots.
Qed.

Lemma extra_name_below_the_invocation_directory_witness :
  extra_entry_name sample_world
                   (below (cwd sample_world) ["proj"; "sub"; "b.txt"])
  = String.concat "/" ["proj"; "sub"; "b.txt"].
Proof.
  apply (extra_name_below_the_invocation_directory sample_world
           ["proj"; "sub"; "b.txt"]); try reflexivity.
  discriminate.
Defined.

Lemma mismatch_split : forall a b a' b',
  mismatch a b = (a', b') -> exists c, a = c ++ a' /\ b = c ++ b'.
Proof.
  induction a as [|x a IH]; intros b a' b' H.
  - simpl in H. inversion H; subst. exists []. auto.
  - destruct b as [|y b]; simpl in H.
    + inversion H; subst. exists []. auto.
    + destruct (String.eqb x y) eqn:E.
      * apply String.eqb_eq in E; subst y.
        destruct (IH b a' b' H) as [c [H1 H2]].
        exists (x :: c). simpl. now rewrite <- H1, <- H2.
      * inversion H; subst. exists []. auto.
Qed.

Lemma updirs_of_plain : forall b,
  forallb plain b = true -> updirs b = Z.of_nat (length b).
Proof.
  induction b as [|x b IH]; intros H; [reflexivity|].
  simpl in H. apply andb_true_iff in H. destruct H as [Hx Hb].
  destruct (plain_inv x Hx) as [E1 E2].
  cbn [updirs length]. rewrite E1, E2, IH by exact Hb. lia.
Qed.

Lemma rev_repeat_dots : forall k,
  rev (repeat ".." k) = repeat ".." k.
Proof.
  induction k as [|k IH]; [reflexivity|].
  cbn [repeat rev]. rewrite IH. clear IH.
  induction k as [|k IH]; [reflexivity|]. cbn [repeat app]. now rewrite IH.
Qed.

(** Leading [..] elements of a relative path stay in its normal form. *)
Lemma normal_elems_keeps_dots : forall n k a,
  forallb plain a = true ->
  normal_elems false (repeat ".." k) (repeat ".." n ++ a)
  = repeat ".." (k + n) ++ a.
Proof.
  induction n as [|n IH]; intros k a Ha.
  - cbn [repeat app]. rewrite normal_elems_of_plain by exact Ha.
    now rewrite rev_repeat_dots, Nat.add_0_r.
  - cbn [repeat app normal_elems]. cbn [String.eqb Ascii.eqb Bool.eqb].
    replace (k + S n)%nat with (S k + n)%nat by lia.
    destruct k as [|k].
    + apply (IH 1%nat a Ha).
    + cbn [repeat]. cbn [String.eqb Ascii.eqb Bool.eqb].
      apply (IH (S (S k)) a Ha).
Qed.

Lemma prefix_of_dots : forall l,
  String.prefix ".." (String.concat "/" (".." :: l)) = true.
Proof. intros [|x l]; reflexivity. Qed.

(** X14.  An extra file that does not lie below the invocation directory
    is archived under its bare file name: its relative path begins with
    [..]. *)
Theorem extra_name_outside_the_invocation_directory :
  forall w p,
    normal_path (cwd w) = true ->
    normal_path p = true ->
    (forall rel, elems p <> elems (cwd w) ++ rel) ->
    extra_entry_name w p = generic_string (filename p).
Proof.
  intros w p Hcwd Hp Hout.
  unfold extra_entry_name, fs_relative.
  rewrite (weakly_canonical_id w _ Hp), (weakly_canonical_id w _ Hcwd).
  unfold normal_path in *.
  apply andb_true_iff in Hp. destruct Hp as [Hpa Hpl].
  apply andb_true_iff in Hcwd. destruct Hcwd as [Hca Hcl].
  unfold lexically_relative. rewrite Hpa, Hca. cbn [Bool.eqb negb].
  destruct (mismatch (elems p) (elems (cwd w))) as [a b] eqn:Em.
  destruct (mismatch_split _ _ _ _ Em) as [c [H1 H2]].
  assert (Hb : b <> []).
  { intros ->. rewrite app_nil_r in H2. apply (Hout a). congruence. }
  assert (Hbp : forallb plain b = true).
  { rewrite H2, forallb_app in Hcl. now apply andb_true_iff in Hcl. }
  assert (Hap : forallb plain a = true).
  { rewrite H1, forallb_app in Hpl. now apply andb_true_iff in Hpl. }
  rewrite (updirs_of_plain b Hbp).
  destruct b as [|y b]; [congruence|].
  replace (match a with [] => _ | _ :: _ => _ end)
    with (mkPath false (repeat ".." (S (length b)) ++ a)).
  2:{ cbn [length]. rewrite Nat2Z.id.
      replace (Z.ltb (Z.of_nat (S (length b))) 0) with false
        by (symmetry; apply Z.ltb_ge; lia).
      replace (Z.eqb (Z.of_nat (S (length b))) 0) with false
        by (symmetry; apply Z.eqb_neq; lia).
      destruct a; reflexivity. }
  unfold lexically_normal. cbn [elems absolute repeat app].
  pose proof (normal_elems_keeps_dots (S (length b)) 0 a Hap) as Hn.
  cbn [repeat app Nat.add] in Hn. rewrite Hn.
  unfold generic_string at 1 2. cbn [absolute elems String.append].
  rewrite prefix_of_dots. now rewrite orb_true_r.
Qed.

Lemma extra_name_outside_the_invocation_directory_witness :
  extra_entry_name sample_world (mkPath true ["tmp"; "notes.md"])
  = generic_string (filename (mkPath true ["tmp"; "notes.md"])).
Proof.
  apply (extra_name_outside_the_invocation_directory sample_world
           (mkPath true ["tmp"; "notes.md"])); try reflexivity.
  intros rel. discriminate.
Defined.

(* ===================================================================== *)
(** ** What every run of the archive builder keeps                        *)
(* ===================================================================== *)

Section WalkerInvariant.
Context {S : Type}.
Variable body : entry -> S -> outcome (list event * S * bool).
Variable P : list event -> Prop.
Hypothesis P_nil : P [].
Hypothesis P_app : forall a b, P a -> P b -> P (a ++ b).
Hypothesis P_body : forall e s out s' b, body e s = Ok (out, s', b) -> P out.

(** What holds of the output of every iteration and is kept by
    concatenation holds of the output of the loop. *)
Lemma rdi_invariant :
  (forall n dir name s out s',
      rdi_node body dir name n s = Ok (out, s') -> P out)
  /\ (forall f dir s out s',
      rdi_forest body dir f s = Ok (out, s') -> P out).
Proof.
  assert (Hleaf : forall dir name (n : node) s out s',
             ('(o, s1, _) <- body (mkEntry (child_path dir name) n) s ;;
              Ok (o, s1)) = Ok (out, s') -> P out).
  { intros dir name n s out s' H.
    destruct (body _ s) as [[[o s1] b]|] eqn:E; [|discriminate].
    cbn [bind] in H. inversion H; subst. eapply P_body; eauto. }
  apply node_forest_mutind.
  - intros i dir name s out s' H. rewrite rdi_node_eq in H.
    eapply Hleaf. exact H.
  - intros i d kids IH dir name s out s' H. rewrite rdi_node_eq in H.
    destruct (body _ s) as [[[o s1] b]|] eqn:E; [|discriminate].
    cbn [bind] in H. destruct (b || d).
    + inversion H; subst. eapply P_body; eauto.
    + destruct (rdi_forest body _ kids s1) as [[o' s2]|] eqn:E2;
        [|discriminate].
      cbn [bind] in H. inversion H; subst. apply P_app.
      * eapply P_body; eauto.
      * eapply IH; eauto.
  - intros i dir name s out s' H. rewrite rdi_node_eq in H.
    eapply Hleaf. exact H.
  - intros dir name s out s' H. rewrite rdi_node_eq in H.
    eapply Hleaf. exact H.
  - intros dir s out s' H. inversion H; subst. exact P_nil.
  - intros name n IHn rest IHr dir s out s' H. rewrite rdi_forest_cons in H.
    destruct (rdi_node body dir name n s) as [[o1 s1]|] eqn:E1;
      [|discriminate].
    cbn [bind] in H.
    destruct (rdi_forest body dir rest s1) as [[o2 s2]|] eqn:E2;
      [|discriminate].
    cbn [bind] in H. inversion H; subst. apply P_app.
    + eapply IHn; eauto.
    + eapply IHr; eauto.
Qed.

Lemma rdi_loop_invariant : forall w root_path s out s',
  rdi_loop body w root_path s = Ok (out, s') -> P out.
Proof.
  intros w root_path s out s' H. unfold rdi_loop in H.
  destruct (lookup w root_path) as [[i|i d kids|i|]|]; try discriminate.
  destruct d.
  - inversion H; subst. exact P_nil.
  - eapply (proj2 rdi_invariant); eauto.
Qed.
End WalkerInvariant.

Lemma extra_loop_invariant :
  forall (P : list event -> Prop) w zip_path total,
    P [] -> (forall a b, P a -> P b -> P (a ++ b)) ->
    (forall x p out p',
        extra_step w zip_path total x p = Ok (out, p') -> P out) ->
    forall l p out p',
      extra_loop w zip_path total l p = Ok (out, p') -> P out.
Proof.
  intros P w zip_path total Hnil Happ Hstep l.
  induction l as [|x l IH]; intros p out p' H; simpl in H.
  - inversion H; subst. exact Hnil.
  - destruct (extra_step w zip_path total x p) as [[o1 p1]|] eqn:E1;
      [|discriminate].
    cbn [bind] in H.
    destruct (extra_loop w zip_path total l p1) as [[o2 p2]|] eqn:E2;
      [|discriminate].
    cbn [bind] in H. inversion H; subst. apply Happ; eauto.
Qed.

Lemma zip_run_app : forall a b st,
  zip_run st (a ++ b)
  = match zip_run st a with
    | Some st' => zip_run st' b
    | None => None
    end.
Proof.
  induction a as [|ev a IH]; intros b st; [reflexivity|].
  simpl. destruct (zip_step st ev); [apply IH|reflexivity].
Qed.

Lemma zip_run_notify : forall total p,
  zip_run ZipIdle (notify total p) = Some ZipIdle.
Proof. intros; unfold notify. destruct (_ && _); reflexivity. Qed.

Lemma live_body_protocol :
  forall w zip_path root_path ignore_set ws wr total e p out p' b,
    live_body w zip_path root_path ignore_set ws wr total e p
    = Ok (out, p', b) ->
    zip_run ZipIdle out = Some ZipIdle.
Proof.
  intros w zip_path root_path ignore_set ws wr total e p out p' b H.
  rewrite live_body_cases in H. cbv zeta in H.
  destruct (should_ignore w root_path (entry_path e) ignore_set) as [[|]|];
    try discriminate.
  - inversion H; subst. reflexivity.
  - destruct (entry_is_regular_file e).
    + destruct (equivalent w (entry_path e) zip_path) as [[|]|];
        try discriminate; cbn [bind] in H; inversion H; subst.
      * reflexivity.
      * cbn [app zip_run zip_step]. apply zip_run_notify.
    + destruct (entry_is_directory e); inversion H; subst; reflexivity.
Qed.

Lemma extra_step_protocol : forall w zip_path total x p out p',
  extra_step w zip_path total x p = Ok (out, p') ->
  zip_run ZipIdle out = Some ZipIdle.
Proof.
  intros w zip_path total [src name] p out p' H. unfold extra_step in H.
  destruct (negb (fs_exists w src) || negb (is_regular_file w src)).
  - inversion H; subst. reflexivity.
  - destruct (equivalent w src zip_path) as [[|]|]; try discriminate;
      cbn [bind] in H; inversion H; subst.
    + reflexivity.
    + cbn [app zip_run zip_step]. apply zip_run_notify.
Qed.

(** X15.  The protocol of the ZIP writer.  Whenever [compress] returns
    after it could open the archive, its calls on the writer are in order:
    each entry that is opened is closed before the next call, the contents
    of a file are written only into an entry just opened, at most once, and
    the archive is closed once, as the last thing of all.  When the archive
    could not be opened the writer is not called. *)
Theorem zip_writer_calls_are_in_order :
  forall w zip_path root_path ignore_set windows_style extra_files w' tr
         processed,
    compress w zip_path root_path ignore_set windows_style extra_files
    = Ok (w', tr, processed) ->
    match zip_open w zip_path with
    | None => tr = [Cout MsgZipOpenError]
    | Some _ =>
        exists calls, tr = calls ++ [ZipClose]
                      /\ zip_run ZipIdle calls = Some ZipIdle
    end.
Proof.
  intros w zip_path root_path ignore_set windows_style extra_files w' tr
         processed H.
  unfold compress in H. destruct (zip_open w zip_path) as [w1|].
  2:{ now inversion H. }
  destruct (count_total w1 root_path ignore_set extra_files) as [total|];
    [|discriminate].
  cbn [bind] in H.
  destruct (rdi_loop _ w1 root_path 0%Z) as [[out1 p1]|] eqn:E1;
    [|discriminate].
  cbn [bind] in H.
  destruct (extra_loop w1 zip_path total extra_files p1) as [[out2 p2]|]
    eqn:E2; [|discriminate].
  cbn [bind] in H. inversion H; subst; clear H.
  exists (out1 ++ out2). split; [now rewrite app_assoc|].
  assert (Happ : forall a b,
             zip_run ZipIdle a = Some ZipIdle ->
             zip_run ZipIdle b = Some ZipIdle ->
             zip_run ZipIdle (a ++ b) = Some ZipIdle)
    by (intros a b Ha Hb; now rewrite zip_run_app, Ha).
  apply Happ.
  - refine (rdi_loop_invariant _
              (fun o => zip_run ZipIdle o = Some ZipIdle)
              eq_refl Happ _ _ _ _ _ _ E1).
    intros e s out s' b Hb. now apply live_body_protocol in Hb.
  - refine (extra_loop_invariant
              (fun o => zip_run ZipIdle o = Some ZipIdle)
              _ zip_path total eq_refl Happ _ _ _ _ _ E2).
    intros x p out p' Hs. now apply extra_step_protocol in Hs.
Qed.

Lemma zip_writer_calls_are_in_order_witness :
  match zip_open sample_world (mkPath true ["work"; "output.zip"]) with
  | None =>
      [ZipEntryOpen "proj/a.txt"; ZipEntryFwrite "/work/proj/a.txt";
       ZipEntryClose; Cout (MsgIgnoreDir (mkPath false ["sub"]));
       ZipEntryOpen "notes.md"; ZipEntryFwrite "/tmp/notes.md";
       ZipEntryClose; OnProgress 100; ZipClose]
      = [Cout MsgZipOpenError]
  | Some _ =>
      exists calls,
        [ZipEntryOpen "proj/a.txt"; ZipEntryFwrite "/work/proj/a.txt";
         ZipEntryClose; Cout (MsgIgnoreDir (mkPath false ["sub"]));
         ZipEntryOpen "notes.md"; ZipEntryFwrite "/tmp/notes.md";
         ZipEntryClose; OnProgress 100; ZipClose]
        = calls ++ [ZipClose]
        /\ zip_run ZipIdle calls = Some ZipIdle
  end.
Proof.
  eapply (zip_writer_calls_are_in_order sample_world
            (mkPath true ["work"; "output.zip"]) proj_path
            [path_of_string "sub"] true
            [(mkPath true ["tmp"; "notes.md"], "notes.md")]).
  vm_compute. reflexivity.
Defined.






(* ===================================================================== *)
(** ** The set of ignore paths                                            *)
(* ===================================================================== *)

Lemma ascii_compare_trans : forall a b c,
  Ascii.compare a b = Lt -> Ascii.compare b c = Lt -> Ascii.compare a c = Lt.
Proof.
  unfold Ascii.compare. intros a b c H1 H2.
  rewrite N.compare_lt_iff in *. eapply N.lt_trans; eauto.
Qed.

Lemma ascii_compare_refl : forall a, Ascii.compare a a = Eq.
Proof. intros; unfold Ascii.compare; apply N.compare_refl. Qed.

Lemma string_compare_refl : forall s, String.compare s s = Eq.
Proof.
  induction s as [|a s IH]; [reflexivity|].
  simpl. now rewrite ascii_compare_refl.
Qed.

Lemma string_compare_trans : forall s t u,
  String.compare s t = Lt -> String.compare t u = Lt -> String.compare s u = Lt.
Proof.
  induction s as [|a s IH]; intros [|b t] [|c u] H1 H2;
    try discriminate; try reflexivity.
  simpl in *.
  destruct (Ascii.compare a b) eqn:Eab; try discriminate.
  - apply Ascii.compare_eq_iff in Eab; subst b.
    destruct (Ascii.compare a c); try discriminate; eauto.
  - destruct (Ascii.compare b c) eqn:Ebc; try discriminate.
    + apply Ascii.compare_eq_iff in Ebc; subst c. now rewrite Eab.
    + now rewrite (ascii_compare_trans a b c).
Qed.

Lemma elems_compare_refl : forall a, elems_compare a a = Eq.
Proof.
  induction a as [|x a IH]; [reflexivity|].
  simpl. now rewrite string_compare_refl.
Qed.

Lemma elems_compare_trans : forall a b c,
  elems_compare a b = Lt -> elems_compare b c = Lt -> elems_compare a c = Lt.
Proof.
  induction a as [|x a IH]; intros [|y b] [|z c] H1 H2;
    try discriminate; try reflexivity.
  simpl in *.
  destruct (String.compare x y) eqn:Exy; try discriminate.
  - apply String.compare_eq_iff in Exy; subst y.
    destruct (String.compare x z); try discriminate; eauto.
  - destruct (String.compare y z) eqn:Eyz; try discriminate.
    + apply String.compare_eq_iff in Eyz; subst z. now rewrite Exy.
    + now rewrite (string_compare_trans x y z).
Qed.

Lemma elems_compare_antisym : forall a b,
  elems_compare b a = CompOpp (elems_compare a b).
Proof.
  induction a as [|x a IH]; intros [|y b]; try reflexivity.
  simpl. rewrite (String.compare_antisym x y).
  destruct (String.compare y x); simpl; auto.
Qed.

Lemma path_compare_refl : forall p, path_compare p p = Eq.
Proof.
  intros [[|] l]; unfold path_compare; simpl; apply elems_compare_refl.
Qed.

Lemma path_compare_trans : forall p q r,
  path_compare p q = Lt -> path_compare q r = Lt -> path_compare p r = Lt.
Proof.
  intros [[|] a] [[|] b] [[|] c]; unfold path_compare; simpl;
    intros H1 H2; try discriminate; try reflexivity;
    eapply elems_compare_trans; eauto.
Qed.

Lemma path_compare_antisym : forall p q,
  path_compare q p = CompOpp (path_compare p q).
Proof.
  intros [[|] a] [[|] b]; unfold path_compare; simpl; try reflexivity;
    apply elems_compare_antisym.
Qed.

Lemma set_insert_Forall : forall (P : path -> Prop) p s,
  P p -> Forall P s -> Forall P (set_insert p s).
Proof.
  intros P p s Hp Hs. induction Hs as [|q r Hq Hr IH]; simpl.
  - auto.
  - destruct (path_compare p q); auto.
Qed.

Lemma set_insert_sorted : forall p s,
  StronglySorted (fun a b => path_compare a b = Lt) s ->
  StronglySorted (fun a b => path_compare a b = Lt) (set_insert p s).
Proof.
  intros p s Hs. induction Hs as [|q r Hr IH Hq]; simpl.
  - repeat constructor.
  - destruct (path_compare p q) eqn:E.
    + now constructor.
    + constructor; [now constructor|]. constructor; [exact E|].
      eapply Forall_impl; [|exact Hq].
      intros x Hx. eapply path_compare_trans; eauto.
    + constructor; [exact IH|]. apply set_insert_Forall; [|exact Hq].
      rewrite (path_compare_antisym p q), E. reflexivity.
Qed.

Lemma make_ignore_set_sorted : forall base l,
  StronglySorted (fun a b => path_compare a b = Lt) (make_ignore_set base l).
Proof.
  intros base l. unfold make_ignore_set.
  assert (G : forall acc,
             StronglySorted (fun a b => path_compare a b = Lt) acc ->
             StronglySorted (fun a b => path_compare a b = Lt)
               (fold_left (fun rel_set p => set_insert (path_of_string p) rel_set)
                          l acc)).
  { induction l as [|x l IH]; intros acc Hacc; simpl; [exact Hacc|].
    apply IH. now apply set_insert_sorted. }
  apply G. constructor.
Qed.

(** Two strictly increasing lists with the same members are the same. *)
Lemma sorted_paths_ext : forall s t,
  StronglySorted (fun a b => path_compare a b = Lt) s ->
  StronglySorted (fun a b => path_compare a b = Lt) t ->
  (forall x, In x s <-> In x t) -> s = t.
Proof.
  assert (Hirr : forall p l,
             Forall (fun b => path_compare p b = Lt) l -> ~ In p l).
  { intros p l Hl Hin. rewrite Forall_forall in Hl.
    specialize (Hl p Hin). rewrite path_compare_refl in Hl. discriminate. }
  intros s t Hs. revert t.
  induction Hs as [|a s Hs IH Ha]; intros t Ht Hm.
  - destruct t as [|b t]; [reflexivity|].
    exfalso. apply (proj2 (Hm b)). now left.
  - inversion Ht as [|b t' Ht' Hb]; subst.
    + exfalso. apply (proj1 (Hm a)). now left.
    + assert (Hab : a = b).
      { destruct (proj1 (Hm a) (or_introl eq_refl)) as [E|Hin]; [auto|].
        destruct (proj2 (Hm b) (or_introl eq_refl)) as [E|Hin']; [auto|].
        exfalso. rewrite Forall_forall in Ha, Hb.
        specialize (Ha b Hin'). specialize (Hb a Hin).
        pose proof (path_compare_trans a b a Ha Hb) as C.
        rewrite path_compare_refl in C. discriminate. }
      subst b. f_equal. apply IH; [exact Ht'|].
      intros x; split; intros Hx.
      * destruct (proj1 (Hm x) (or_intror Hx)) as [E|Hin]; [|exact Hin].
        subst x. exfalso. now apply (Hirr a s).
      * destruct (proj2 (Hm x) (or_intror Hx)) as [E|Hin]; [|exact Hin].
        subst x. exfalso. now apply (Hirr a t').
Qed.

(** X17.  The ignore set is a set.  [make_ignore_set] returns the parsed
    ignore paths in strictly increasing order of [fs::path], each once, so
    two lists of [--ignore] arguments that name the same paths, in whatever
    order and however often, give the same set (and with it the same run of
    [compress]). *)
Theorem ignore_set_forgets_order_and_repetition :
  forall base base' l l',
    (forall p, In p (map path_of_string l) <-> In p (map path_of_string l')) ->
    make_ignore_set base l = make_ignore_set base' l'
    /\ NoDup (make_ignore_set base l)
    /\ StronglySorted (fun a b => path_compare a b = Lt)
                      (make_ignore_set base l).
Proof.
  intros base base' l l' H.
  pose proof (make_ignore_set_sorted base l) as Hs.
  split; [|split; [|exact Hs]].
  - apply sorted_paths_ext; [exact Hs|apply make_ignore_set_sorted|].
    intros x. rewrite !make_ignore_set_In. apply H.
  - induction Hs as [|a s Hs' IH Ha]; constructor; [|exact IH].
    intros Hin. rewrite Forall_forall in Ha. specialize (Ha a Hin).
    rewrite path_compare_refl in Ha. discriminate.
Qed.

Lemma ignore_set_forgets_order_and_repetition_witness :
  make_ignore_set (mkPath true ["work"]) ["sub"; "a.txt"; "sub"; "./b"]
  = make_ignore_set (mkPath true ["tmp"]) ["./b"; "sub"; "a.txt"]
  /\ NoDup (make_ignore_set (mkPath true ["work"])
                            ["sub"; "a.txt"; "sub"; "./b"])
  /\ StronglySorted (fun a b => path_compare a b = Lt)
       (make_ignore_set (mkPath true ["work"])
                        ["sub"; "a.txt"; "sub"; "./b"]).
Proof.
  apply (ignore_set_forgets_order_and_repetition
           (mkPath true ["work"]) (mkPath true ["tmp"])
           ["sub"; "a.txt"; "sub"; "./b"] ["./b"; "sub"; "a.txt"]).
  intros p. vm_compute. tauto.
Defined.
